(** * Relocation engine of the CLE loader: ARM, AArch64 and PE base relocations

    A shallow embedding of
      - [cle/backends/elf/relocation/arm.py]   (R_ARM_CALL, R_ARM_PREL31, R_ARM_THM_CALL,
                                                R_ARM_ABS32, R_ARM_REL32, the ARM and
                                                Thumb MOVW/MOVT types),
      - [cle/backends/elf/relocation/arm64.py] (the instruction-patching AArch64 types),
      - [cle/backends/pe/pe.py]                (PE.__register_relocs, PE._make_reloc,
                                                PE.is_compatible,
                                                PE.check_magic_compatibility,
                                                PE._register_tls_callbacks),
    and the properties of the relocation specification checked against it,
    followed by further properties read off the code.

    Python integers are unbounded, so every integer is a [Z]; [&], [|], [^],
    [~], [<<] and [>>] are [Z.land], [Z.lor], [Z.lxor], [Z.lnot], [Z.shiftl]
    and [Z.shiftr], which agree with Python on negative numbers as well
    (two's complement with infinitely many sign bits, flooring shifts). *)

From Stdlib Require Import ZArith Lia Bool List String.
From coqutil Require Import Byte Word.LittleEndianList.
From stdpp Require Import gmap.
From Equations Require Import Equations.
Import ListNotations.

Local Open Scope Z_scope.

(* ===================================================================== *)
(** * Python values, exceptions and the effect monad                       *)
(* ===================================================================== *)

Module Py.

(** Truth value of an integer: [bool(z)], and [if z:]. *)
Definition truthy (z : Z) : bool := negb (z =? 0).

(** [not z] on an integer. *)
Definition not_ (z : Z) : bool := z =? 0.

(** The exceptions that the modelled code can raise. *)
Inductive exn : Type :=
| ValueError (msg : string)
| CLEOperationError (msg : string)
| KeyError (addr : Z)
| AttributeError (attr : string)
| IndexError
| StructError.

(** Outcome of a call: a value, or a propagating exception. *)
Inductive res (A : Type) : Type :=
| Ok (a : A)
| Raise (e : exn).
Arguments Ok {A} a.
Arguments Raise {A} e.

(** Stateful, fallible code: the state survives an exception, as the
    mutations made before a Python [raise] do. *)
Definition M (St A : Type) : Type := St -> res A * St.

Definition ret {St A} (a : A) : M St A := fun s => (Ok a, s).

Definition raise {St A} (e : exn) : M St A := fun s => (Raise e, s).

Definition bind {St A B} (m : M St A) (k : A -> M St B) : M St B :=
  fun s => match m s with
           | (Ok a, s') => k a s'
           | (Raise e, s') => (Raise e, s')
           end.

Definition gets {St A} (f : St -> A) : M St A := fun s => (Ok (f s), s).

Definition modify {St} (f : St -> St) : M St unit := fun s => (Ok tt, f s).

Definition lift {St A} (r : res A) : M St A := fun s => (r, s).

End Py.

Import Py.

(** The monad is used through stdpp's [mret], [x ← m; k] and [m;; k]. *)
#[global] Instance M_ret {St} : MRet (Py.M St) := fun A => @Py.ret St A.
#[global] Instance M_bind {St} : MBind (Py.M St) := fun A B k m => @Py.bind St A B m k.
#[global] Instance res_ret : MRet Py.res := fun A => @Py.Ok A.
#[global] Instance res_bind : MBind Py.res :=
  fun A B k r => match r with Py.Ok a => k a | Py.Raise e => Py.Raise e end.

(* ===================================================================== *)
(** * Symbols and relocation records                                       *)
(* ===================================================================== *)

Module Symbol.
(** The attributes of a symbol that the relocation code reads. *)
Record t : Type := mk {
  name : string;
  is_function : bool;
  rebased_addr : Z
}.
End Symbol.

Module Reloc.
(** Modelled from the spec: the resolution state of a record.  The base
    class that keeps it is not part of the sources.  The record of the
    specification holds a resolution state and [resolvedby], "set once
    resolution succeeds"; the code under [src/] reads it through two
    attributes, the flag [self.resolved] (arm64.py:86) and the binding
    [self.resolvedby] (arm64.py:81).  A record is created unresolved, with
    no binding; [resolve(obj)] marks it resolved and binds it to [obj],
    which may be [None]: the flag can be set while no symbol is bound. *)
Inductive resolution : Type :=
| Unresolved
| Resolved (obj : option Symbol.t).

(** An ELF relocation record.  [addend] is the attribute the code reads as
    [self.addend]: for an implicit-addend (REL) record it is the word found
    at the target location. *)
Record t : Type := mk {
  symbol : Symbol.t;
  state : resolution;
  relative_addr : Z;
  rebased_addr : Z;
  addend : Z;
  is_rela : bool
}.

(** [self.resolved]: the flag. *)
Definition resolved (r : t) : bool :=
  match state r with Unresolved => false | Resolved _ => true end.

(** [self.resolvedby]: the binding, [None] until [resolve] sets one. *)
Definition resolvedby (r : t) : option Symbol.t :=
  match state r with Unresolved => None | Resolved obj => obj end.

(** [self.resolvedby.rebased_addr]: an [AttributeError] on [None]. *)
Definition resolvedby_addr (r : t) : res Z :=
  match resolvedby r with
  | Some s => Ok (Symbol.rebased_addr s)
  | None => Raise (AttributeError "rebased_addr")
  end.
End Reloc.

(* ===================================================================== *)
(** * The backing memory image                                             *)
(* ===================================================================== *)

Module Clemory.

(** Modelled from the spec: the memory class behind [owner.memory]
    ([load], [unpack_word], [pack_word]) is not part of the sources.  The
    specification gives its interface, [read_bytes(object, rva, length)]
    and [write_bytes(object, rva, bytes)], byte-range exact and without
    zero-fill, and fixes the byte order: words are stored and loaded as
    little-endian byte sequences.  Memory is a finite map from addresses
    to bytes; touching an address that is not mapped raises [KeyError]. *)
Fixpoint load (m : gmap Z byte) (addr : Z) (n : nat) : res (list byte) :=
  match n with
  | O => Ok []
  | S n' =>
      match m !! addr with
      | None => Raise (KeyError addr)
      | Some b => bs ← load m (addr + 1) n'; mret (b :: bs)
      end
  end.

(** Modelled from the spec: [write_bytes]; nothing is written when part of
    the range is unmapped. *)
Fixpoint store (m : gmap Z byte) (addr : Z) (bs : list byte) : res (gmap Z byte) :=
  match bs with
  | [] => Ok m
  | b :: bs' =>
      match m !! addr with
      | None => Raise (KeyError addr)
      | Some _ => store (<[addr := b]> m) (addr + 1) bs'
      end
  end.

(** Modelled from the spec: [unpack_word(addr, size=n)], the unsigned
    little-endian word of [n] bytes at [addr]. *)
Definition unpack_word (m : gmap Z byte) (addr : Z) (size : nat) : res Z :=
  bs ← load m addr size; mret (le_combine bs).

(** Modelled from the spec: [pack_word(addr, data, size=n)]; an unsigned
    word that does not fit [n] bytes cannot be packed. *)
Definition pack_word (m : gmap Z byte) (addr : Z) (data : Z) (size : nat)
  : res (gmap Z byte) :=
  if (0 <=? data) && (data <? 2 ^ (8 * Z.of_nat size))
  then store m addr (le_split size data)
  else Raise StructError.

End Clemory.

Module World.
(** What a relocation can touch: the owner's memory, and the warnings
    emitted through the module logger. *)
Record t : Type := mk {
  memory : gmap Z byte;
  warnings : list string
}.

Definition warning (msg : string) : M t unit :=
  modify (fun w => mk (memory w) (warnings w ++ [msg])).

Definition unpack_word (addr : Z) (size : nat) : M t Z :=
  fun w => (Clemory.unpack_word (memory w) addr size, w).

Definition pack_word (addr : Z) (data : Z) (size : nat) : M t unit :=
  fun w => match Clemory.pack_word (memory w) addr data size with
           | Ok m' => (Ok tt, mk m' (warnings w))
           | Raise e => (Raise e, w)
           end.
End World.

Module Relocation.
(** Modelled from the spec: the [relocate] that the record types without
    one of their own inherit (the ARM types of arm.py among them); the
    base class that defines it is not part of the sources.  The per-record
    operation of the specification, [apply() -> bool], "returns whether a
    byte-level change was made; false when still unresolved"; for a
    resolved record the engine "computes its value, and writes the patched
    bytes back through a memory-write interface".  [value] is the [value]
    of the record type and [write] the memory-write interface. *)
Definition relocate {St : Type} (value : Reloc.t -> M St Z)
    (write : Reloc.t -> Z -> M St unit) (self : Reloc.t) : M St bool :=
  if negb (Reloc.resolved self) then mret false else
  v ← value self;
  write self v;;
  mret true.
End Relocation.

(* ===================================================================== *)
(** * [cle/backends/elf/relocation/arm.py]                                 *)
(* ===================================================================== *)

Module Arm.

(** [_applyReloc(inst, result, mask=0xFFFFFFFF)] (arm.py:29-40).  The
    [ValueError] raised when [result & ~mask] is not zero is caught on the
    spot: a warning is logged and 0 is returned. *)
Definition _applyReloc (inst result mask : Z) : Z :=
  if truthy (Z.land result (Z.lnot mask))
  then 0
  else Z.lor (Z.land inst (Z.lnot mask)) (Z.land result mask).

(** [_isThumbFunc(symbol, addr)] (arm.py:43-48):
    [(addr % 2 == 1) and symbol.is_function]. *)
Definition _isThumbFunc (symbol : Symbol.t) (addr : Z) : bool :=
  (addr mod 2 =? 1) && Symbol.is_function symbol.

(** ** R_ARM_CALL, also R_ARM_PC24 and R_ARM_JUMP24 (arm.py:71-92) *)

(** The sign-extended addend (lines 74, 78-79). *)
Definition R_ARM_CALL_A (inst : Z) : Z :=
  let A := inst in
  if truthy (Z.land inst 0x00800000) then Z.lor A 0xFF000000 else A.

(** [result = ((S + (A << 2)) | T) - P] (line 80). *)
Definition R_ARM_CALL_result (S A : Z) (T : bool) (P : Z) : Z :=
  Z.lor (S + Z.shiftl A 2) (Z.b2z T) - P.

(** [imm24 = (result & 0x03FFFFFE) >> 2] (line 81). *)
Definition R_ARM_CALL_imm24 (result : Z) : Z :=
  Z.shiftr (Z.land result 0x03FFFFFE) 2.

Definition R_ARM_CALL_value (self : Reloc.t) : res Z :=
  let P := Reloc.rebased_addr self in
  let inst := Reloc.addend self in
  S ← Reloc.resolvedby_addr self;
  let T := _isThumbFunc (Reloc.symbol self) S in
  let A := R_ARM_CALL_A inst in
  let result := R_ARM_CALL_result S A T P in
  let imm24 := R_ARM_CALL_imm24 result in
  if T then
    let mask := 0xFF000000 in
    let bit_h := Z.shiftr (Z.land result 0x02) 1 in
    mret (_applyReloc inst (Z.lor 0xFA bit_h) mask)
  else
    let mask := 0xFFFFFF in
    mret (_applyReloc inst imm24 mask).

(** ** R_ARM_PREL31 (arm.py:111-125) *)

(** The addend after the sign-extension step (lines 114, 118-119). *)
Definition R_ARM_PREL31_A (addend : Z) : Z :=
  let A := addend in
  if truthy (Z.land A 0x01000000) then Z.lor A 0xF1000000 else A.

Definition R_ARM_PREL31_value (self : Reloc.t) : res Z :=
  let P := Reloc.rebased_addr self in
  S ← Reloc.resolvedby_addr self;
  let T := _isThumbFunc (Reloc.symbol self) S in
  let A := R_ARM_PREL31_A (Reloc.addend self) in
  let result := Z.lor (S + A) (Z.b2z T) - P in
  let mask := 0x7FFFFFFF in
  let rel31 := Z.land result mask in
  mret (_applyReloc A rel31 mask).

(** ** R_ARM_THM_CALL (arm.py:250-373) *)

(** The record's private cache [_insn_bytes] next to the world it reads. *)
Record thm_state : Type := mk_thm {
  _insn_bytes : option (list byte);
  world : World.t
}.

(** [gen_mask(n_bits, first_bit)] (lines 303-307). *)
Definition gen_mask (n_bits first_bit : Z) : Z :=
  Z.shiftl (Z.shiftl 1 n_bits - 1) first_bit.

(** Lines 296-297: the four instruction bytes are loaded once and kept. *)
Definition THM_CALL_insn_bytes (self : Reloc.t) : M thm_state (list byte) :=
  cached ← gets _insn_bytes;
  match cached with
  | Some bs => mret bs
  | None =>
      bs ← (fun st => (Clemory.load (World.memory (world st)) (Reloc.relative_addr self) 4, st));
      modify (fun st => mk_thm (Some bs) (world st));;
      mret bs
  end.

(** [self._insn_bytes[i]]. *)
Definition byte_at (bs : list byte) (i : nat) : res Z :=
  match bs !! i with
  | Some b => Ok (byte.unsigned b)
  | None => Raise IndexError
  end.

(** Lines 299-301: the two little-endian halves, first half on top. *)
Definition THM_CALL_inst (bs : list byte) : res Z :=
  b1 ← byte_at bs 1; b0 ← byte_at bs 0;
  let hi := Z.lor (Z.shiftl b1 8) b0 in
  b3 ← byte_at bs 3; b2 ← byte_at bs 2;
  let lo := Z.lor (Z.shiftl b3 8) b2 in
  mret (Z.lor (Z.shiftl hi 16) lo).

(** Lines 312-328: the initial addend held by a REL instruction. *)
Definition THM_CALL_addend (inst : Z) : Z :=
  let A := 0 in
  let A := Z.lor A (Z.shiftl (Z.land inst (gen_mask 11 0)) 1) in
  let A := Z.lor A (Z.shiftl (Z.shiftr (Z.land inst (gen_mask 10 16)) 16) 12) in
  let sign_bit := Z.land (Z.b2z (truthy (Z.land inst (gen_mask 1 26)))) 1 in
  let J1 := Z.lxor (Z.land (Z.b2z (truthy (Z.land inst (gen_mask 1 13)))) 1)
                   (Z.b2z (not_ sign_bit)) in
  let J2 := Z.lxor (Z.land (Z.b2z (truthy (Z.land inst (gen_mask 1 11)))) 1)
                   (Z.b2z (not_ sign_bit)) in
  let A := Z.lor A (Z.shiftl J1 23) in
  let A := Z.lor A (Z.shiftl J2 22) in
  let A := Z.land A 0x7FFFFF in
  if truthy sign_bit then Z.lor A 0xFF800000 else A.

(** Line 333: [x = (((S + A) | T) - P) & 0xFFFFFFFF]. *)
Definition THM_CALL_x (S A : Z) (T : bool) (P : Z) : Z :=
  Z.land (Z.lor (S + A) (Z.b2z T) - P) 0xFFFFFFFF.

(** Line 337: the test guarding the [raise]. *)
Definition THM_CALL_out_of_range (x : Z) : bool :=
  negb (Z.land x 0xFF800000 =? 0) && negb (Z.land x 0xFF800000 =? 0xFF800000).

(** Lines 349-362: the instruction rebuilt around the new offset.  The
    mask cleared on line 349 is 0b00000111111111110010111111111111. *)
Definition THM_CALL_encode (inst x : Z) : Z :=
  let inst := Z.land inst (Z.lnot 0x07FF2FFF) in
  let sign_bit := Z.land (Z.b2z (truthy (Z.land x (gen_mask 1 24)))) 1 in
  let J1 := Z.lxor (Z.land (Z.b2z (truthy (Z.land x (gen_mask 1 23)))) 1)
                   (Z.b2z (not_ sign_bit)) in
  let J2 := Z.lxor (Z.land (Z.b2z (truthy (Z.land x (gen_mask 1 22)))) 1)
                   (Z.b2z (not_ sign_bit)) in
  let inst := Z.lor inst (Z.shiftl sign_bit 26) in
  let inst := Z.lor inst (Z.shiftl J1 13) in
  let inst := Z.lor inst (Z.shiftl J2 11) in
  let inst := Z.lor inst (Z.shiftr (Z.land x (gen_mask 11 1)) 1) in
  let inst := Z.lor inst (Z.shiftl (Z.shiftr (Z.land x (gen_mask 10 12)) 12) 16) in
  inst.

(** Lines 366-370: back to two little-endian halves, as one
    little-endian word. *)
Definition THM_CALL_result (inst : Z) : Z :=
  let raw0 := Z.shiftr (Z.land inst 0x00FF0000) 16 in
  let raw1 := Z.shiftr (Z.land inst 0xFF000000) 24 in
  let raw2 := Z.land inst 0x00FF in
  let raw3 := Z.shiftr (Z.land inst 0xFF00) 8 in
  Z.lor (Z.lor (Z.lor (Z.shiftl raw3 24) (Z.shiftl raw2 16)) (Z.shiftl raw1 8)) raw0.

Definition THM_CALL_error : exn :=
  CLEOperationError "Jump target out of range for reloc R_ARM_THM_CALL (+- 2^23). This may be due to SimProcedures being allocated outside the jump range. If you believe this is the case, set 'rebase_granularity'=0x1000 in the load options.".

Definition R_ARM_THM_CALL_value (self : Reloc.t) : M thm_state Z :=
  let P := Reloc.rebased_addr self in
  S ← lift (Reloc.resolvedby_addr self);
  let T := _isThumbFunc (Reloc.symbol self) S in
  bs ← THM_CALL_insn_bytes self;
  inst ← lift (THM_CALL_inst bs);
  let A := if Reloc.is_rela self then Reloc.addend self else THM_CALL_addend inst in
  let x := THM_CALL_x S A T P in
  if THM_CALL_out_of_range x then raise THM_CALL_error
  else mret (THM_CALL_result (THM_CALL_encode inst x)).

(** ** R_ARM_REL32 (arm.py:144-152) and R_ARM_ABS32 (arm.py:170-177) *)

Definition R_ARM_REL32_value (self : Reloc.t) : res Z :=
  let P := Reloc.rebased_addr self in
  let A := Reloc.addend self in
  S ← Reloc.resolvedby_addr self;
  let T := _isThumbFunc (Reloc.symbol self) S in
  mret (Z.lor (S + A) (Z.b2z T) - P).

Definition R_ARM_ABS32_value (self : Reloc.t) : res Z :=
  let A := Reloc.addend self in
  S ← Reloc.resolvedby_addr self;
  let T := _isThumbFunc (Reloc.symbol self) S in
  mret (Z.lor (S + A) (Z.b2z T)).

(** ** R_ARM_MOVW_ABS_NC (arm.py:193-213) and R_ARM_MOVT_ABS (arm.py:228-247) *)

(** Lines 200-203 and 234-237: the 16-bit literal field of the instruction,
    read as a signed value. *)
Definition MOVW_addend (inst : Z) : Z :=
  let A := Z.lor (Z.shiftr (Z.land inst 0xF0000) 4) (Z.land inst 0xFFF) in
  if truthy (Z.land A 0x8000) then - (Z.lxor A 0xFFFF + 1) else A.

(** Lines 205-211: the low half of [X] written into the two fields. *)
Definition MOVW_encode (inst X : Z) : Z :=
  let MaskX := Z.land X 0xFFFF in
  let part1 := Z.shiftr MaskX 12 in
  let part2 := Z.land MaskX 0xFFF in
  let inst := Z.land inst 0xFFF0F000 in
  let inst := Z.lor inst (Z.land (Z.shiftl part1 16) 0xF0000) in
  let inst := Z.lor inst (Z.land part2 0xFFF) in
  inst.

Definition R_ARM_MOVW_ABS_NC_value (self : Reloc.t) : res Z :=
  let inst := Reloc.addend self in
  S ← Reloc.resolvedby_addr self;
  let T := _isThumbFunc (Reloc.symbol self) S in
  let A := MOVW_addend inst in
  let X := Z.lor (S + A) (Z.b2z T) in
  mret (MOVW_encode inst X).

(** Lines 239-245: the high half of [X] written into the two fields. *)
Definition MOVT_encode (inst X : Z) : Z :=
  let MaskX := Z.land X 0xFFFF0000 in
  let part1 := Z.shiftr (Z.shiftr MaskX 16) 12 in
  let part2 := Z.land (Z.shiftr MaskX 16) 0xFFF in
  let inst := Z.land inst 0xFFF0F000 in
  let inst := Z.lor inst (Z.land (Z.shiftl part1 16) 0xF0000) in
  let inst := Z.lor inst (Z.land part2 0xFFF) in
  inst.

Definition R_ARM_MOVT_ABS_value (self : Reloc.t) : res Z :=
  let inst := Reloc.addend self in
  S ← Reloc.resolvedby_addr self;
  let A := MOVW_addend inst in
  let X := S + A in
  mret (MOVT_encode inst X).

(** ** R_ARM_THM_MOVW_ABS_NC (arm.py:440-472) and R_ARM_THM_MOVT_ABS
    (arm.py:481-512) *)

(** Lines 449-455 and 490-496.  The four masks are
    0b0000_0100_0000_0000_0000_0000_0000_0000,
    0b0000_0000_0000_1111_0000_0000_0000_0000,
    0b0000_0000_0000_0000_0111_0000_0000_0000 and
    0b0000_0000_0000_0000_0000_0000_1111_1111. *)
Definition THM_MOVW_addend (inst : Z) : Z :=
  let A := Z.shiftl (Z.shiftr (Z.land inst 0x04000000) 26) 15 in
  let A := Z.lor A (Z.shiftl (Z.shiftr (Z.land inst 0x000F0000) 16) 11) in
  let A := Z.lor A (Z.shiftl (Z.shiftr (Z.land inst 0x00007000) 12) 8) in
  let A := Z.lor A (Z.land inst 0x000000FF) in
  if truthy (Z.land A 0x8000) then - (Z.lxor A 0xFFFF + 1) else A.

(** Lines 464-468 and 504-508: the four parts written into the instruction;
    the mask kept is 0b1111_1011_1111_0000_1000_1111_0000_0000. *)
Definition THM_MOV_insert (inst part1 part2 part3 part4 : Z) : Z :=
  let inst := Z.land inst 0xFBF08F00 in
  let inst := Z.lor inst (Z.land (Z.shiftl part1 16) 0x000F0000) in
  let inst := Z.lor inst (Z.land (Z.shiftl part2 26) 0x04000000) in
  let inst := Z.lor inst (Z.land (Z.shiftl part3 12) 0x00007000) in
  let inst := Z.lor inst (Z.land (Z.shiftl part4 0) 0x000000FF) in
  inst.

(** Lines 458-468. *)
Definition THM_MOVW_encode (inst X : Z) : Z :=
  let MaskX := Z.land X 0xFFFF in
  let part1 := Z.shiftr MaskX 12 in
  let part2 := Z.land (Z.shiftr MaskX 11) 0x1 in
  let part3 := Z.land (Z.shiftr MaskX 8) 0x7 in
  let part4 := Z.land MaskX 0xFF in
  THM_MOV_insert inst part1 part2 part3 part4.

(** Lines 498-508. *)
Definition THM_MOVT_encode (inst X : Z) : Z :=
  let MaskX := Z.land X 0xFFFF0000 in
  let part1 := Z.shiftr MaskX 28 in
  let part2 := Z.land (Z.shiftr MaskX 27) 0x1 in
  let part3 := Z.land (Z.shiftr MaskX 24) 0x7 in
  let part4 := Z.land (Z.shiftr MaskX 16) 0xFF in
  THM_MOV_insert inst part1 part2 part3 part4.

(** [self.owner.memory.load(self.relative_addr, 4)]. *)
Definition load_insn (self : Reloc.t) : M World.t (list byte) :=
  fun w => (Clemory.load (World.memory w) (Reloc.relative_addr self) 4, w).

(** The two halves are put together and taken apart by the text of
    R_ARM_THM_CALL (lines 443-445 as 299-301, 469-470 as 366-370). *)
Definition R_ARM_THM_MOVW_ABS_NC_value (self : Reloc.t) : M World.t Z :=
  insn_bytes ← load_insn self;
  inst ← lift (THM_CALL_inst insn_bytes);
  S ← lift (Reloc.resolvedby_addr self);
  let A := THM_MOVW_addend inst in
  let T := _isThumbFunc (Reloc.symbol self) S in
  let X := Z.lor (S + A) (Z.b2z T) in
  mret (THM_CALL_result (THM_MOVW_encode inst X)).

Definition R_ARM_THM_MOVT_ABS_value (self : Reloc.t) : M World.t Z :=
  insn_bytes ← load_insn self;
  inst ← lift (THM_CALL_inst insn_bytes);
  S ← lift (Reloc.resolvedby_addr self);
  let A := THM_MOVW_addend inst in
  let X := S + A in
  mret (THM_CALL_result (THM_MOVT_encode inst X)).

End Arm.

(* ===================================================================== *)
(** * [cle/backends/elf/relocation/arm64.py]                               *)
(* ===================================================================== *)

Module Arm64.

(** The relocation types of arm64.py that patch an instruction word. *)
Inductive kind : Type :=
| R_AARCH64_JUMP26
| R_AARCH64_CALL26
| R_AARCH64_ADR_PREL_PG_HI21
| R_AARCH64_ADD_ABS_LO12_NC
| R_AARCH64_LDST8_ABS_LO12_NC
| R_AARCH64_LDST16_ABS_LO12_NC
| R_AARCH64_LDST32_ABS_LO12_NC
| R_AARCH64_LDST64_ABS_LO12_NC
| R_AARCH64_LDST128_ABS_LO12_NC.

(** ** The [value] properties *)

(** R_AARCH64_JUMP26.value and R_AARCH64_CALL26.value: [S + A - P]. *)
Definition branch26_value (self : Reloc.t) : res Z :=
  let A := Reloc.addend self in
  S ← Reloc.resolvedby_addr self;
  let P := Reloc.rebased_addr self in
  mret (S + A - P).

(** R_AARCH64_ADR_PREL_PG_HI21.value:
    [((S + A) & ~0xFFF) - (P & ~0xFFF)]. *)
Definition adr_prel_pg_hi21_value (self : Reloc.t) : res Z :=
  let A := Reloc.addend self in
  S ← Reloc.resolvedby_addr self;
  let P := Reloc.rebased_addr self in
  mret (Z.land (S + A) (Z.lnot 0xFFF) - Z.land P (Z.lnot 0xFFF)).

(** The [value] of the low-12 absolute family: [S + A]. *)
Definition abs_lo12_value (self : Reloc.t) : res Z :=
  let A := Reloc.addend self in
  S ← Reloc.resolvedby_addr self;
  mret (S + A).

Definition value (k : kind) (self : Reloc.t) : res Z :=
  match k with
  | R_AARCH64_JUMP26 | R_AARCH64_CALL26 => branch26_value self
  | R_AARCH64_ADR_PREL_PG_HI21 => adr_prel_pg_hi21_value self
  | _ => abs_lo12_value self
  end.

(** ** The [relocate] methods

    [self.value] is a property without side effects, so a method that
    reads it several times is modelled with one read at its first use. *)

(** R_AARCH64_JUMP26.relocate (arm64.py:85-93); the mask kept on line 90
    is 0b11111100000000000000000000000000. *)
Definition R_AARCH64_JUMP26_relocate (self : Reloc.t) : M World.t bool :=
  if negb (Reloc.resolved self) then mret false else
  value ← lift (branch26_value self);
  (if negb ((- (2 ^ 27) <=? value) && (value <? 2 ^ 27))
   then World.warning "relocation out of range" else mret tt);;
  word ← World.unpack_word (Reloc.relative_addr self) 4;
  let instr := Z.land word 0xFC000000 in
  let imm := Z.land (Z.shiftr value 2) 0x03FFFFFF in
  World.pack_word (Reloc.relative_addr self) (Z.lor instr imm) 4;;
  mret true.

(** R_AARCH64_CALL26.relocate (arm64.py:109-117). *)
Definition R_AARCH64_CALL26_relocate (self : Reloc.t) : M World.t bool :=
  if negb (Reloc.resolved self) then mret false else
  value ← lift (branch26_value self);
  (if negb ((- (2 ^ 27) <=? value) && (value <? 2 ^ 27))
   then World.warning "relocation out of range" else mret tt);;
  word ← World.unpack_word (Reloc.relative_addr self) 4;
  let instr := Z.land word 0xFC000000 in
  let imm := Z.land (Z.shiftr value 2) 0x03FFFFFF in
  World.pack_word (Reloc.relative_addr self) (Z.lor instr imm) 4;;
  mret true.

(** Lines 139-141: the page count and its two groups. *)
Definition adrp_imm (value : Z) : Z := Z.land (Z.shiftr value 12) 0x1FFFFF.
Definition adrp_immlo (imm : Z) : Z := Z.land imm 3.
Definition adrp_immhi (imm : Z) : Z := Z.shiftr imm 2.

(** R_AARCH64_ADR_PREL_PG_HI21.relocate (arm64.py:133-143); the mask kept
    on line 138 is 0b10011111000000000000000000011111. *)
Definition R_AARCH64_ADR_PREL_PG_HI21_relocate (self : Reloc.t) : M World.t bool :=
  if negb (Reloc.resolved self) then mret false else
  value ← lift (adr_prel_pg_hi21_value self);
  (if negb ((- (2 ^ 32) <=? value) && (value <? 2 ^ 32))
   then World.warning "relocation out of range" else mret tt);;
  word ← World.unpack_word (Reloc.relative_addr self) 4;
  let instr := Z.land word 0x9F00001F in
  let imm := adrp_imm value in
  let immlo := adrp_immlo imm in
  let immhi := adrp_immhi imm in
  World.pack_word (Reloc.relative_addr self)
    (Z.lor (Z.lor instr (Z.shiftl immhi 5)) (Z.shiftl immlo 29)) 4;;
  mret true.

(** The [relocate] shared, up to the scale, by the low-12 absolute family
    (arm64.py:158-164, 179-185, 200-206, 221-227, 242-248, 263-269):
    [imm = (value & 0b1111_1111_1111) >> scale], and the mask kept is
    0b11111111110000000000001111111111. *)
Definition abs_lo12_relocate (scale : Z) (self : Reloc.t) : M World.t bool :=
  if negb (Reloc.resolved self) then mret false else
  word ← World.unpack_word (Reloc.relative_addr self) 4;
  let instr := Z.land word 0xFFC003FF in
  value ← lift (abs_lo12_value self);
  let imm := Z.shiftr (Z.land value 0xFFF) scale in
  World.pack_word (Reloc.relative_addr self) (Z.lor instr (Z.shiftl imm 10)) 4;;
  mret true.

(** ADD and LDST8 write [value & 0xFFF] itself: no shift in the source. *)
Definition R_AARCH64_ADD_ABS_LO12_NC_relocate (self : Reloc.t) : M World.t bool :=
  if negb (Reloc.resolved self) then mret false else
  word ← World.unpack_word (Reloc.relative_addr self) 4;
  let instr := Z.land word 0xFFC003FF in
  value ← lift (abs_lo12_value self);
  let imm := Z.land value 0xFFF in
  World.pack_word (Reloc.relative_addr self) (Z.lor instr (Z.shiftl imm 10)) 4;;
  mret true.

Definition R_AARCH64_LDST8_ABS_LO12_NC_relocate (self : Reloc.t) : M World.t bool :=
  if negb (Reloc.resolved self) then mret false else
  word ← World.unpack_word (Reloc.relative_addr self) 4;
  let instr := Z.land word 0xFFC003FF in
  value ← lift (abs_lo12_value self);
  let imm := Z.land value 0xFFF in
  World.pack_word (Reloc.relative_addr self) (Z.lor instr (Z.shiftl imm 10)) 4;;
  mret true.

Definition R_AARCH64_LDST16_ABS_LO12_NC_relocate := abs_lo12_relocate 1.
Definition R_AARCH64_LDST32_ABS_LO12_NC_relocate := abs_lo12_relocate 2.
Definition R_AARCH64_LDST64_ABS_LO12_NC_relocate := abs_lo12_relocate 3.
Definition R_AARCH64_LDST128_ABS_LO12_NC_relocate := abs_lo12_relocate 4.

(** Method dispatch on the record's class. *)
Definition relocate (k : kind) : Reloc.t -> M World.t bool :=
  match k with
  | R_AARCH64_JUMP26 => R_AARCH64_JUMP26_relocate
  | R_AARCH64_CALL26 => R_AARCH64_CALL26_relocate
  | R_AARCH64_ADR_PREL_PG_HI21 => R_AARCH64_ADR_PREL_PG_HI21_relocate
  | R_AARCH64_ADD_ABS_LO12_NC => R_AARCH64_ADD_ABS_LO12_NC_relocate
  | R_AARCH64_LDST8_ABS_LO12_NC => R_AARCH64_LDST8_ABS_LO12_NC_relocate
  | R_AARCH64_LDST16_ABS_LO12_NC => R_AARCH64_LDST16_ABS_LO12_NC_relocate
  | R_AARCH64_LDST32_ABS_LO12_NC => R_AARCH64_LDST32_ABS_LO12_NC_relocate
  | R_AARCH64_LDST64_ABS_LO12_NC => R_AARCH64_LDST64_ABS_LO12_NC_relocate
  | R_AARCH64_LDST128_ABS_LO12_NC => R_AARCH64_LDST128_ABS_LO12_NC_relocate
  end.

End Arm64.

(* ===================================================================== *)
(** * [cle/backends/pe/pe.py]                                              *)
(* ===================================================================== *)

Module PE.

(** [pefile.RELOCATION_TYPE["IMAGE_REL_BASED_HIGHADJ"]]. *)
Definition IMAGE_REL_BASED_HIGHADJ : Z := 4.

(** One entry of a base-relocation block, as pefile hands it over. *)
Record entry : Type := mk_entry {
  type : Z;
  rva : Z
}.

Section Backend.

(** The table [get_relocation(arch_name, reloc_type)] of
    [cle/backends/pe/relocation] is not part of the sources: the classes
    it holds and the lookup are parameters. *)
Variable RelocClass : Type.
Variable get_relocation : string -> Z -> option RelocClass.

(** The relocation objects [_make_reloc] builds. *)
Inductive reloc : Type :=
| IMAGE_REL_BASED_ABSOLUTE (symbol : option string) (addr : Z) (resolvewith : option string)
| DllImport (symbol : option string) (addr : Z) (resolvewith : option string)
| HIGHADJ (addr : Z) (next_rva : Z)
| Instance_of (cls : RelocClass) (symbol : option string) (addr : Z).

(** The attributes of the PE object that registration reads and writes. *)
Record t : Type := mk {
  arch_name : string;
  pic : bool;
  relocs : list reloc;
  warnings : list string
}.

(** [PE.__init__], line 88:
    [self.pic = self.pic or DllCharacteristics & 0x40 != 0]. *)
Definition init_pic (self : t) (DllCharacteristics : Z) : t :=
  mk (arch_name self)
     (pic self || negb (Z.land DllCharacteristics 0x40 =? 0))
     (relocs self) (warnings self).

(** [PE._make_reloc] (pe.py:331-357).  A constructed object is never
    [None], so the warning of lines 350-355 cannot be reached and [cls]
    is returned. *)
Definition _make_reloc (self : t) (addr : Z) (reloc_type : option Z)
    (symbol : option string) (next_rva : option Z) (resolvewith : option string)
  : option reloc :=
  match reloc_type with
  | Some 0 => Some (IMAGE_REL_BASED_ABSOLUTE symbol addr resolvewith)
  | None => Some (DllImport symbol addr resolvewith)
  | Some reloc_type =>
      match next_rva with
      | Some next_rva => Some (HIGHADJ addr next_rva)
      | None =>
          match get_relocation (arch_name self) reloc_type with
          | None => None
          | Some RelocClass_ => Some (Instance_of RelocClass_ symbol addr)
          end
      end
  end.

(** Lines 322-325: a record that was made sets [pic] and is appended. *)
Definition register (reloc_ : option reloc) (self : t) : t :=
  match reloc_ with
  | Some r => mk (arch_name self) true (relocs self ++ [r]) (warnings self)
  | None => self
  end.

Definition warn (msg : string) (self : t) : t :=
  mk (arch_name self) (pic self) (relocs self) (warnings self ++ [msg]).

(** The [while] loop over one block (pe.py:306-327), from the cursor
    [entry_idx] on.  [entries[i]] raises [IndexError] out of range. *)
Equations? entries_loop (entries : list entry) (entry_idx : nat) (self : t)
  : res t by wf (length entries - entry_idx)%nat lt :=
entries_loop entries entry_idx self with lt_dec entry_idx (length entries) := {
  | right _ => Ok self
  | left _ with entries !! entry_idx := {
      | None => Raise IndexError
      | Some reloc_data with type reloc_data =? IMAGE_REL_BASED_HIGHADJ := {
          | true with Nat.eqb entry_idx (length entries) := {
              | true => Ok (warn "PE contains corrupt base relocation table" self)
              | false with entries !! entry_idx := {
                  | None => Raise IndexError
                  | Some next_entry =>
                      let reloc_ := _make_reloc self (rva reloc_data) (Some (type reloc_data))
                                      None (Some (rva next_entry)) None in
                      entries_loop entries (entry_idx + 1 + 1) (register reloc_ self) } }
          | false =>
              let reloc_ := _make_reloc self (rva reloc_data) (Some (type reloc_data))
                              None None None in
              entries_loop entries (entry_idx + 1) (register reloc_ self) } } }.
Proof. all: lia. Qed.

(** The [for] loop over the blocks of the directory (line 305). *)
Fixpoint blocks_loop (blocks : list (list entry)) (self : t) : res t :=
  match blocks with
  | [] => Ok self
  | entries :: rest =>
      self' ← entries_loop entries 0 self;
      blocks_loop rest self'
  end.

(** [PE.__register_relocs] (pe.py:300-329).  [None] stands for a parsed
    file without the attribute [DIRECTORY_ENTRY_BASERELOC].  The result
    is the returned list together with the object afterwards. *)
Definition __register_relocs (DIRECTORY_ENTRY_BASERELOC : option (list (list entry)))
    (self : t) : res (list reloc * t) :=
  match DIRECTORY_ENTRY_BASERELOC with
  | None => Ok ([], self)
  | Some blocks =>
      self' ← blocks_loop blocks self;
      mret (relocs self', self')
  end.

End Backend.

Arguments IMAGE_REL_BASED_ABSOLUTE {RelocClass}.
Arguments DllImport {RelocClass}.
Arguments HIGHADJ {RelocClass}.
Arguments Instance_of {RelocClass}.
Arguments mk {RelocClass}.
Arguments arch_name {RelocClass}.
Arguments pic {RelocClass}.
Arguments relocs {RelocClass}.
Arguments warnings {RelocClass}.
Arguments init_pic {RelocClass}.
Arguments register {RelocClass}.
Arguments warn {RelocClass}.
Arguments _make_reloc {RelocClass}.
Arguments entries_loop {RelocClass}.
Arguments blocks_loop {RelocClass}.
Arguments __register_relocs {RelocClass}.

End PE.

(* ===================================================================== *)
(** * Recognising a PE file, and the TLS callback table                    *)
(* ===================================================================== *)

Module PEStream.

(** A seekable binary stream, as Python's [io] module defines it: the
    bytes of the file and a cursor. *)
Record stream : Type := mk_stream {
  data : list byte;
  pos : nat
}.

(** [stream.read(n)]: at most [n] bytes from the cursor on, the cursor
    advancing past what was read. *)
Definition read (n : nat) (s : stream) : list byte * stream :=
  let bs := take n (drop (pos s) (data s)) in
  (bs, mk_stream (data s) (pos s + length bs)).

(** [stream.seek(k)]. *)
Definition seek (k : nat) (s : stream) : stream := mk_stream (data s) k.

(** [bs[a:b]] for [0 <= a <= b]. *)
Definition slice (bs : list byte) (a b : nat) : list byte := take (b - a) (drop a bs).

(** [==] on [bytes]. *)
Fixpoint bytes_eqb (a b : list byte) : bool :=
  match a, b with
  | [], [] => true
  | x :: a', y :: b' => Byte.eqb x y && bytes_eqb a' b'
  | _, _ => false
  end.

(** [bs.startswith(prefix)]. *)
Definition startswith (bs prefix : list byte) : bool :=
  bytes_eqb (take (length prefix) bs) prefix.

(** [b"MZ"] and [b"PE\0\0"]. *)
Definition MZ : list byte := [Byte.x4d; Byte.x5a].
Definition PE00 : list byte := [Byte.x50; Byte.x45; Byte.x00; Byte.x00].

Section Host.

(** [struct.unpack("I", bs)] reads an unsigned 32-bit integer in the byte
    order of the host, and raises [struct.error] unless it is handed
    exactly four bytes. *)
Variable little_endian : bool.

Definition unpack_I (bs : list byte) : res Z :=
  if Nat.eqb (length bs) 4
  then Ok (if little_endian then le_combine bs else le_combine (rev bs))
  else Raise StructError.

(** [PE.is_compatible] (pe.py:133-141). *)
Definition is_compatible (s : stream) : res bool * stream :=
  let '(identstring, s) := read 0x1000 s in
  let s := seek 0 s in
  if startswith identstring MZ && (0x40 <? length identstring)%nat then
    match unpack_I (slice identstring 0x3C 0x40) with
    | Raise e => (Raise e, s)
    | Ok peptr =>
        if (peptr <? Z.of_nat (length identstring))
           && bytes_eqb (slice identstring (Z.to_nat peptr) (Z.to_nat (peptr + 4))) PE00
        then (Ok true, s)
        else (Ok false, s)
    end
  else (Ok false, s).

End Host.

(** [PE.check_magic_compatibility] (pe.py:143-148). *)
Definition check_magic_compatibility (s : stream) : bool * stream :=
  let s := seek 0 s in
  let '(identstring, s) := read 0x10 s in
  let s := seek 0 s in
  (startswith identstring MZ, s).

End PEStream.

Module PETls.

Section Image.

(** [pefile]'s [get_dword_at_rva], which answers [None] outside the
    image, and the translation [AT.from_lva(addr, self).to_rva()] of the
    address translator, neither of them part of the sources. *)
Variable get_dword_at_rva : Z -> option Z.
Variable lva_to_rva : Z -> Z.

(** The [while] loop of [_register_tls_callbacks] (pe.py:377-380), entered
    with the dword last read; [None] when [fuel] iterations were not
    enough to leave it. *)
Fixpoint callbacks_loop (fuel : nat) (callback_rva : Z) (callback : option Z)
    (callbacks : list Z) : option (list Z) :=
  match fuel with
  | O => None
  | S fuel' =>
      match callback with
      | Some c =>
          if negb (c =? 0)
          then callbacks_loop fuel' (callback_rva + 4)
                 (get_dword_at_rva (callback_rva + 4)) (callbacks ++ [c])
          else Some callbacks
      | None => Some callbacks
      end
  end.

(** [PE._register_tls_callbacks] (pe.py:369-382). *)
Definition _register_tls_callbacks (fuel : nat) (addr : Z) : option (list Z) :=
  let callback_rva := lva_to_rva addr in
  callbacks_loop fuel callback_rva (get_dword_at_rva callback_rva) [].

End Image.

End PETls.

(* ===================================================================== *)
(** * Notions used to state the properties                                 *)
(* ===================================================================== *)

Module Bits.

(** [fits n a]: no bit of [a] at position [n] or above. *)
Definition fits (n a : Z) : Prop := forall i, n <= i -> Z.testbit a i = false.

(** Finitely many bit positions, listed. *)
Fixpoint all_below (n : nat) (P : Z -> Prop) : Prop :=
  match n with
  | O => True
  | S n' => all_below n' P /\ P (Z.of_nat n')
  end.

End Bits.

Module ArmSpec.
Import Arm.

(** The 32-bit word [x] read as a signed number. *)
Definition signed32 (x : Z) : Z := if x <? 2 ^ 31 then x else x - 2 ^ 32.

(** A [bl] at offset 0x1000 ([00 F0 00 F8]) and a callee 32 MiB away. *)
Definition bl_bytes : gmap Z byte :=
  <[0x1000 := Byte.x00]> (<[0x1001 := Byte.xf0]> (<[0x1002 := Byte.x00]>
    (<[0x1003 := Byte.xf8]> ∅))).

Definition far_call : Reloc.t :=
  Reloc.mk (Symbol.mk "far" true 0) (Reloc.Resolved (Some (Symbol.mk "far" true 0x2000000)))
           0x1000 0x1000 0 false.

Definition fresh : thm_state := mk_thm None (World.mk bl_bytes []).

(** A [bl] at [P = 0x1000] to the Thumb function at [S = 0x2001]. *)
Definition thumb_call : Reloc.t :=
  Reloc.mk (Symbol.mk "f" true 0) (Reloc.Resolved (Some (Symbol.mk "f" true 0x2001)))
           0x1000 0x1000 0 false.

(** The 16-bit immediate of an ARM [movw]/[movt]: [imm4:imm12], held in
    bits [19:16] and [11:0]. *)
Definition imm16 (inst : Z) : Z :=
  Z.lor (Z.shiftl (Z.land (Z.shiftr inst 16) 0xF) 12) (Z.land inst 0xFFF).

(** The 16-bit immediate of a Thumb-2 [movw]/[movt]: [imm4:i:imm3:imm8],
    held in bits [19:16], [26], [14:12] and [7:0] of the instruction read
    with its first half on top. *)
Definition thm_imm16 (inst : Z) : Z :=
  Z.lor (Z.lor (Z.lor (Z.shiftl (Z.land (Z.shiftr inst 16) 0xF) 12)
                      (Z.shiftl (Z.land (Z.shiftr inst 26) 0x1) 11))
               (Z.shiftl (Z.land (Z.shiftr inst 12) 0x7) 8))
        (Z.land inst 0xFF).

(** [movw r0, #0] and [movt r1, #0], both bound to the Thumb function at
    [0x12345679]. *)
Definition movw_f : Reloc.t :=
  Reloc.mk (Symbol.mk "f" true 0) (Reloc.Resolved (Some (Symbol.mk "f" true 0x12345679)))
           0x1000 0x1000 0xE3000000 false.

Definition movt_f : Reloc.t :=
  Reloc.mk (Symbol.mk "f" true 0) (Reloc.Resolved (Some (Symbol.mk "f" true 0x12345679)))
           0x1004 0x1004 0xE3400000 false.

(** A Thumb [movw r0, #0] ([40 F2 00 00]) at offset 0x1000 and a record
    over it. *)
Definition movw_bytes : gmap Z byte :=
  <[0x1000 := Byte.x40]> (<[0x1001 := Byte.xf2]> (<[0x1002 := Byte.x00]>
    (<[0x1003 := Byte.x00]> ∅))).

Definition thm_movw_f : Reloc.t :=
  Reloc.mk (Symbol.mk "f" true 0) (Reloc.Resolved (Some (Symbol.mk "f" true 0x12345679)))
           0x1000 0x1000 0 false.

End ArmSpec.

Module Arm64Spec.
Import Arm64.

(** The immediate field each type owns in the instruction word:
    bits [25:0] for the branches, [30:29] and [23:5] for ADRP, [21:10]
    for the low-12 family. *)
Definition field (k : kind) : Z :=
  match k with
  | R_AARCH64_JUMP26 | R_AARCH64_CALL26 => 0x03FFFFFF
  | R_AARCH64_ADR_PREL_PG_HI21 => 0x60FFFFE0
  | _ => 0x003FFC00
  end.

(** The word a resolved relocation of kind [k] writes over [old]. *)
Definition patched (k : kind) (old value : Z) : Z :=
  match k with
  | R_AARCH64_JUMP26 | R_AARCH64_CALL26 =>
      Z.lor (Z.land old 0xFC000000) (Z.land (Z.shiftr value 2) 0x03FFFFFF)
  | R_AARCH64_ADR_PREL_PG_HI21 =>
      Z.lor (Z.lor (Z.land old 0x9F00001F) (Z.shiftl (adrp_immhi (adrp_imm value)) 5))
            (Z.shiftl (adrp_immlo (adrp_imm value)) 29)
  | R_AARCH64_ADD_ABS_LO12_NC | R_AARCH64_LDST8_ABS_LO12_NC =>
      Z.lor (Z.land old 0xFFC003FF) (Z.shiftl (Z.land value 0xFFF) 10)
  | R_AARCH64_LDST16_ABS_LO12_NC =>
      Z.lor (Z.land old 0xFFC003FF) (Z.shiftl (Z.shiftr (Z.land value 0xFFF) 1) 10)
  | R_AARCH64_LDST32_ABS_LO12_NC =>
      Z.lor (Z.land old 0xFFC003FF) (Z.shiftl (Z.shiftr (Z.land value 0xFFF) 2) 10)
  | R_AARCH64_LDST64_ABS_LO12_NC =>
      Z.lor (Z.land old 0xFFC003FF) (Z.shiftl (Z.shiftr (Z.land value 0xFFF) 3) 10)
  | R_AARCH64_LDST128_ABS_LO12_NC =>
      Z.lor (Z.land old 0xFFC003FF) (Z.shiftl (Z.shiftr (Z.land value 0xFFF) 4) 10)
  end.

(** Same memory outside the four bytes at [addr]. *)
Definition same_outside (addr : Z) (m m' : gmap Z byte) : Prop :=
  forall a, a < addr \/ addr + 4 <= a -> m' !! a = m !! a.

(** [Page(x) = x & ~0xFFF], in the words of the specification. *)
Definition Page (x : Z) : Z := Z.land x (Z.lnot 0xFFF).

(** A page holding the instruction [adrp x0, 0] at offset 0x1000, and
    records over it. *)
Definition adrp_bytes : gmap Z byte :=
  <[0x1000 := Byte.x00]> (<[0x1001 := Byte.x00]> (<[0x1002 := Byte.x00]>
    (<[0x1003 := Byte.x90]> ∅))).

Definition target : Symbol.t := Symbol.mk "target" false 0x3800.

Definition bound : Reloc.t := Reloc.mk target (Reloc.Resolved (Some target)) 0x1000 0x1000 0 true.



(** Whether the range test of a [relocate] fails on [value]: the branches
    test [-2^27 <= value < 2^27], ADRP [-2^32 <= value < 2^32], the low-12
    family nothing. *)
Definition out_of_range (k : kind) (value : Z) : bool :=
  match k with
  | R_AARCH64_JUMP26 | R_AARCH64_CALL26 =>
      negb ((- (2 ^ 27) <=? value) && (value <? 2 ^ 27))
  | R_AARCH64_ADR_PREL_PG_HI21 =>
      negb ((- (2 ^ 32) <=? value) && (value <? 2 ^ 32))
  | _ => false
  end.

(** The access size of the low-12 family, as a power of two. *)
Definition scale (k : kind) : Z :=
  match k with
  | R_AARCH64_LDST16_ABS_LO12_NC => 1
  | R_AARCH64_LDST32_ABS_LO12_NC => 2
  | R_AARCH64_LDST64_ABS_LO12_NC => 3
  | R_AARCH64_LDST128_ABS_LO12_NC => 4
  | _ => 0
  end.

Definition is_lo12 (k : kind) : bool :=
  match k with
  | R_AARCH64_JUMP26 | R_AARCH64_CALL26 | R_AARCH64_ADR_PREL_PG_HI21 => false
  | _ => true
  end.

Definition is_branch26 (k : kind) : bool :=
  match k with
  | R_AARCH64_JUMP26 | R_AARCH64_CALL26 => true
  | _ => false
  end.

(** An [n]-bit field read as a two's complement number. *)
Definition sext (n z : Z) : Z := if z <? 2 ^ (n - 1) then z else z - 2 ^ n.

(** A branch at 0x1000 to a target 256 MiB away, over the same bytes. *)
Definition far_target : Symbol.t := Symbol.mk "far" false 0x10001000.

Definition far_branch : Reloc.t := Reloc.mk far_target (Reloc.Resolved (Some far_target)) 0x1000 0x1000 0 true.

(** An [add] at 0x1000 bound like [bound]. *)
Definition bound_add : Reloc.t := Reloc.mk target (Reloc.Resolved (Some target)) 0x1000 0x1004 0 true.

(** An [adrp x0, 0; add x0, x0, 0] pair at 0x1000, and the [add] record
    of the pair at 0x1004. *)
Definition pair_bytes : gmap Z byte :=
  <[0x1000 := Byte.x00]> (<[0x1001 := Byte.x00]> (<[0x1002 := Byte.x00]>
    (<[0x1003 := Byte.x90]> (<[0x1004 := Byte.x00]> (<[0x1005 := Byte.x00]>
      (<[0x1006 := Byte.x00]> (<[0x1007 := Byte.x91]> ∅))))))).

Definition pair_add : Reloc.t := Reloc.mk target (Reloc.Resolved (Some target)) 0x1004 0x1004 0 true.

End Arm64Spec.

Module PESpec.
Import PE.

(** What one run of a loop leaves behind: records were only appended,
    [pic] was only ever set, and it is set as soon as one record was
    appended.  No path of the loop changes the warnings. *)
Definition extends {RelocClass : Type} (self self' : PE.t RelocClass) : Prop :=
  arch_name self' = arch_name self /\
  warnings self' = warnings self /\
  (pic self = true -> pic self' = true) /\
  exists new, relocs self' = relocs self ++ new /\ (new <> [] -> pic self' = true).

(** The records one block of entries gives, by recursion on the block: a
    HIGHADJ entry gives a record and swallows the entry after it, any
    other entry gives what [_make_reloc] makes of it. *)
Fixpoint dispatch {RelocClass : Type} (get_relocation : string -> Z -> option RelocClass)
    (self : PE.t RelocClass) (entries : list entry) : list (reloc RelocClass) :=
  match entries with
  | [] => []
  | e :: rest =>
      if type e =? IMAGE_REL_BASED_HIGHADJ
      then HIGHADJ (rva e) (rva e)
           :: match rest with
              | [] => []
              | _ :: rest' => dispatch get_relocation self rest'
              end
      else match _make_reloc get_relocation self (rva e) (Some (type e)) None None None with
           | Some r => r :: dispatch get_relocation self rest
           | None => dispatch get_relocation self rest
           end
  end.

(** The object after the records [new] were registered one by one. *)
Definition registered {RelocClass : Type} (new : list (reloc RelocClass))
    (self : PE.t RelocClass) : PE.t RelocClass :=
  match new with
  | [] => self
  | _ => mk (arch_name self) true (relocs self ++ new) (warnings self)
  end.

(** The address a record was made for. *)
Definition addr_of {RelocClass : Type} (r : reloc RelocClass) : Z :=
  match r with
  | IMAGE_REL_BASED_ABSOLUTE _ addr _ => addr
  | DllImport _ addr _ => addr
  | HIGHADJ addr _ => addr
  | Instance_of _ _ addr => addr
  end.

End PESpec.

Module PEStreamSpec.
Import PEStream.

(** The smallest file [is_compatible] takes for a PE: [MZ], zeros up to
    offset 0x3C, the header offset 0x40 there, and the signature at
    0x40. *)
Definition tiny_pe : list byte :=
  MZ ++ repeat Byte.x00 0x3A ++ [Byte.x40; Byte.x00; Byte.x00; Byte.x00] ++ PE00.

End PEStreamSpec.

Module PETlsSpec.

(** An image with two TLS callbacks at RVA 0x2000 and a null after them. *)
Definition image_dwords (rva : Z) : option Z :=
  if rva =? 0x2000 then Some 0x401000
  else if rva =? 0x2004 then Some 0x401040
  else if rva =? 0x2008 then Some 0
  else None.

End PETlsSpec.

(* ===================================================================== *)
(** * Bit-level reasoning on instruction words                             *)
(* ===================================================================== *)

Module BitsFacts.
Import Bits.

Lemma fits_range n a : 0 <= n -> fits n a <-> 0 <= a < 2 ^ n.
Proof.
  intros Hn. split.
  - intros Hf.
    assert (Ha : 0 <= a).
    { destruct (Z.neg_nonneg_cases a) as [Hneg|]; [|assumption].
      destruct (proj1 (Z.bits_iff_neg_ex a) Hneg) as (k & Hk).
      specialize (Hk (Z.max n (k + 1)) ltac:(lia)).
      rewrite Hf in Hk by lia. discriminate. }
    split; [assumption|].
    destruct (Z.eq_dec a 0) as [->|Hnz]; [apply Z.pow_pos_nonneg; lia|].
    apply Z.log2_lt_pow2; [lia|].
    destruct (Z.lt_ge_cases (Z.log2 a) n) as [|Hge]; [assumption|].
    pose proof (Z.bit_log2 a ltac:(lia)) as Hb. rewrite Hf in Hb by assumption. discriminate.
  - intros [Ha Hlt] i Hi.
    destruct (Z.eq_dec a 0) as [->|Hnz]; [apply Z.bits_0|].
    apply Z.bits_above_log2; [assumption|].
    apply Z.lt_le_trans with n; [|assumption].
    apply Z.log2_lt_pow2; lia.
Qed.

Lemma fits_const n c : 0 <= n -> (0 <=? c) && (c <? 2 ^ n) = true -> fits n c.
Proof. intros Hn H. apply fits_range; lia. Qed.

Lemma fits_land_l n a b : fits n a -> fits n (Z.land a b).
Proof. intros H i Hi. rewrite Z.land_spec, H by assumption. reflexivity. Qed.

Lemma fits_land_r n a b : fits n b -> fits n (Z.land a b).
Proof. intros H i Hi. rewrite Z.land_spec, H by assumption. apply andb_false_r. Qed.

Lemma fits_lor n a b : fits n a -> fits n b -> fits n (Z.lor a b).
Proof. intros Ha Hb i Hi. rewrite Z.lor_spec, Ha, Hb by assumption. reflexivity. Qed.

Lemma fits_shiftr n a s : 0 <= n -> fits (n + s) a -> fits n (Z.shiftr a s).
Proof. intros Hn H i Hi. rewrite Z.shiftr_spec by lia. apply H. lia. Qed.

Lemma fits_shiftl n a s : 0 <= n -> fits (n - s) a -> fits n (Z.shiftl a s).
Proof. intros Hn H i Hi. rewrite Z.shiftl_spec by lia. apply H. lia. Qed.

Lemma fits_weaken n m a : n <= m -> fits n a -> fits m a.
Proof. intros Hnm H i Hi. apply H. lia. Qed.

Lemma fits_b2z n b : 1 <= n -> fits n (Z.b2z b).
Proof.
  intros Hn. apply fits_range; [lia|].
  pose proof (Z.pow_le_mono_r 2 1 n ltac:(lia) Hn) as Hp. change (2 ^ 1) with 2 in Hp.
  destruct b; cbn; lia.
Qed.

Lemma fits_if n (b : bool) x y : fits n x -> fits n y -> fits n (if b then x else y).
Proof. destruct b; auto. Qed.

Lemma all_below_spec n P : all_below n P -> forall i, 0 <= i < Z.of_nat n -> P i.
Proof.
  induction n as [|n IH]; intros H i Hi; [lia|].
  destruct H as [Hlow Hn].
  destruct (Z.eq_dec i (Z.of_nat n)) as [->|Hne]; [assumption|].
  apply IH; [assumption|lia].
Qed.

Lemma eq_by_bits (n : nat) a b :
  fits (Z.of_nat n) a -> fits (Z.of_nat n) b ->
  all_below n (fun i => Z.testbit a i = Z.testbit b i) -> a = b.
Proof.
  intros Ha Hb H. apply Z.bits_inj'. intros i Hi.
  destruct (Z.lt_ge_cases i (Z.of_nat n)) as [Hlt|Hge].
  - apply (all_below_spec _ _ H). lia.
  - rewrite Ha, Hb by assumption. reflexivity.
Qed.

(** Python's [bool(x & (1 << k))] is bit [k] of [x]. *)
Lemma truthy_land_pow2 x k : 0 <= k ->
  truthy (Z.land x (Z.shiftl 1 k)) = Z.testbit x k.
Proof.
  intros Hk. unfold truthy.
  rewrite Z.shiftl_1_l.
  destruct (Z.testbit x k) eqn:E.
  - destruct (Z.eqb_spec (Z.land x (2 ^ k)) 0) as [H0|]; [|reflexivity].
    apply (f_equal (fun z => Z.testbit z k)) in H0.
    rewrite Z.land_spec, E, Z.pow2_bits_true, Z.bits_0 in H0 by assumption. discriminate.
  - destruct (Z.eqb_spec (Z.land x (2 ^ k)) 0) as [|Hnz]; [reflexivity|].
    exfalso. apply Hnz. apply Z.bits_inj'. intros i Hi.
    rewrite Z.land_spec, Z.bits_0, Z.pow2_bits_eqb by assumption.
    destruct (Z.eqb_spec k i) as [<-|]; [rewrite E; reflexivity|apply andb_false_r].
Qed.

Lemma land_b2z_1 b : Z.land (Z.b2z b) 1 = Z.b2z b.
Proof. destruct b; reflexivity. Qed.

Lemma not_b2z b : not_ (Z.b2z b) = negb b.
Proof. destruct b; reflexivity. Qed.

Lemma truthy_b2z b : truthy (Z.b2z b) = b.
Proof. destruct b; reflexivity. Qed.

Lemma lxor_b2z a b : Z.lxor (Z.b2z a) (Z.b2z b) = Z.b2z (xorb a b).
Proof. destruct a, b; reflexivity. Qed.

Lemma testbit_b2z b k : Z.testbit (Z.b2z b) k = b && (k =? 0).
Proof.
  destruct b; cbn [Z.b2z andb]; [|apply Z.bits_0].
  destruct k as [|p|p]; try reflexivity; destruct p; reflexivity.
Qed.

Lemma testbit_if (b : bool) x y i :
  Z.testbit (if b then x else y) i = if b then Z.testbit x i else Z.testbit y i.
Proof. destruct b; reflexivity. Qed.

(** Rewriting [Z.testbit] through the bitwise operations at a literal
    position, then evaluating what has become closed. *)
Ltac push_testbit :=
  repeat first
    [ rewrite Z.land_spec | rewrite Z.lor_spec | rewrite Z.lxor_spec
    | rewrite testbit_if | rewrite testbit_b2z
    | rewrite Z.shiftr_spec by (vm_compute; discriminate)
    | rewrite Z.shiftl_spec by (vm_compute; discriminate)
    | rewrite Z.lnot_spec by (vm_compute; discriminate) ].

(** A term built from constants and constructors only. *)
Ltac closed_term t :=
  lazymatch t with
  | ?f ?a => closed_term f; closed_term a
  | _ => first [ is_constructor t | is_const t ]
  end.

Ltac eval_closed :=
  repeat match goal with
    | |- context [Z.testbit ?a (Z.neg ?p)] =>
        change (Z.testbit a (Z.neg p)) with false
    | |- context [Z.testbit ?a ?k] =>
        closed_term a; closed_term k;
        let v := eval vm_compute in (Z.testbit a k) in
        match v with
        | true => change (Z.testbit a k) with true
        | false => change (Z.testbit a k) with false
        end
    | |- context [Z.testbit ?a ?k] =>
        closed_term k;
        let k' := eval vm_compute in k in
        lazymatch k with
        | k' => fail
        | _ => change (Z.testbit a k) with (Z.testbit a k')
        end
    | |- context [Z.eqb ?a ?b] =>
        closed_term a; closed_term b;
        let v := eval vm_compute in (Z.eqb a b) in
        match v with
        | true => change (Z.eqb a b) with true
        | false => change (Z.eqb a b) with false
        end
    end.

Ltac case_bits :=
  repeat match goal with
    | |- context [Z.testbit ?a ?k] => destruct (Z.testbit a k)
    end;
  try reflexivity; try discriminate.

Ltac bit_norm := repeat progress (push_testbit; eval_closed).

Ltac bit_goal := bit_norm; cbn [andb orb negb xorb]; case_bits.

(** Closed comparisons between literals. *)
Ltac lit_le := vm_compute; congruence.

(** Width bounds, by the shape of the expression. *)
Ltac solve_fits :=
  first
    [ assumption
    | apply fits_const; [lit_le | reflexivity]
    | apply fits_b2z; lit_le
    | apply fits_lor; solve_fits
    | apply fits_land_r; solve_fits
    | apply fits_land_l; solve_fits
    | apply fits_shiftl; [lit_le | solve_fits]
    | apply fits_shiftr; [lit_le | solve_fits]
    | apply fits_if; solve_fits
    | eapply fits_weaken; [|eassumption]; lit_le ].

(** Equality of two words of at most [n] bits, one position at a time. *)
Ltac by_bits n :=
  apply (eq_by_bits n); [ | | cbv [all_below Z.of_nat Pos.of_succ_nat Pos.succ]; repeat split; bit_goal ].

End BitsFacts.

(* ===================================================================== *)
(** * Loads and stores                                                     *)
(* ===================================================================== *)

Module ClemoryFacts.
Import Clemory.

Lemma load_length m addr n bs : load m addr n = Ok bs -> length bs = n.
Proof.
  revert addr bs. induction n as [|n IH]; intros addr bs; cbn [load].
  - intros [= <-]. reflexivity.
  - destruct (m !! addr) as [b|]; [|discriminate].
    destruct (load m (addr + 1) n) as [bs'|e] eqn:E; cbn; [|discriminate].
    intros [= <-]. cbn. f_equal. eauto.
Qed.

(** Bytes outside the written range keep their value; the written range
    holds the new bytes. *)
Lemma store_frame bs : forall m addr m' a,
  store m addr bs = Ok m' ->
  a < addr \/ addr + Z.of_nat (length bs) <= a ->
  m' !! a = m !! a.
Proof.
  induction bs as [|b bs IH]; intros m addr m' a; cbn [store length].
  - intros [= <-] _. reflexivity.
  - destruct (m !! addr) as [b0|]; [|discriminate].
    intros Hst Ha. rewrite (IH _ _ _ a Hst) by lia.
    apply lookup_insert_ne. lia.
Qed.

Lemma load_after_store bs : forall m addr m',
  store m addr bs = Ok m' -> load m' addr (length bs) = Ok bs.
Proof.
  induction bs as [|b bs IH]; intros m addr m'; cbn [store length load].
  - reflexivity.
  - destruct (m !! addr) as [b0|]; [|discriminate].
    intros Hst.
    rewrite (store_frame _ _ _ _ addr Hst) by lia.
    rewrite lookup_insert_eq. rewrite (IH _ _ _ Hst). reflexivity.
Qed.

Lemma load_insert_below m addr b n : forall a,
  addr < a -> load (<[addr := b]> m) a n = load m a n.
Proof.
  induction n as [|n IH]; intros a Ha; cbn [load]; [reflexivity|].
  rewrite lookup_insert_ne by lia. rewrite IH by lia. reflexivity.
Qed.

(** A range that can be loaded can be overwritten. *)
Lemma store_total bs : forall m addr old,
  load m addr (length bs) = Ok old -> exists m', store m addr bs = Ok m'.
Proof.
  induction bs as [|b bs IH]; intros m addr old; cbn [store length load].
  - eauto.
  - destruct (m !! addr) as [b0|] eqn:E; [|discriminate].
    destruct (load m (addr + 1) (length bs)) as [bs'|e] eqn:El; cbn; [|discriminate].
    intros _. apply (IH _ _ bs').
    rewrite load_insert_below by lia. exact El.
Qed.

(** Writing a word over a readable word and reading it back. *)
Lemma pack_unpack m addr size old data :
  unpack_word m addr size = Ok old ->
  0 <= data < 2 ^ (8 * Z.of_nat size) ->
  exists m', pack_word m addr data size = Ok m'
             /\ unpack_word m' addr size = Ok data
             /\ forall a, a < addr \/ addr + Z.of_nat size <= a -> m' !! a = m !! a.
Proof.
  unfold unpack_word, pack_word. intros Hold Hdata.
  destruct (load m addr size) as [bs|e] eqn:El; [|discriminate].
  destruct (Z.leb_spec 0 data); [|lia].
  destruct (Z.ltb_spec data (2 ^ (8 * Z.of_nat size))); [|lia]. cbn [andb].
  destruct (store_total (le_split size data) m addr bs) as (m' & Hst).
  { rewrite length_le_split. exact El. }
  exists m'. split; [exact Hst|]. split.
  - pose proof (load_after_store _ _ _ _ Hst) as Hl.
    rewrite length_le_split in Hl. rewrite Hl. cbn.
    rewrite le_combine_split. f_equal. apply Z.mod_small.
    rewrite Z.mul_comm. exact Hdata.
  - intros a Ha. eapply store_frame; [exact Hst|].
    rewrite length_le_split. exact Ha.
Qed.

Lemma unpack_word_range m addr size w :
  unpack_word m addr size = Ok w -> 0 <= w < 2 ^ (8 * Z.of_nat size).
Proof.
  unfold unpack_word. destruct (load m addr size) as [bs|e] eqn:El; [|discriminate].
  cbn. intros [= <-]. rewrite <- (load_length _ _ _ _ El). apply le_combine_bound.
Qed.

End ClemoryFacts.

(* ===================================================================== *)
(** * Properties of the ARM and Thumb relocations                          *)
(* ===================================================================== *)

Module ArmFacts.
Import Arm Bits BitsFacts ArmSpec.

Lemma truthy_of_bit z k : Z.testbit z k = true -> truthy z = true.
Proof.
  intros H. unfold truthy. destruct (Z.eqb_spec z 0) as [->|]; [|reflexivity].
  rewrite Z.bits_0 in H. discriminate.
Qed.

Lemma odd_is_thumb_func name a k :
  _isThumbFunc (Symbol.mk name true a) (2 * k + 1) = true.
Proof.
  unfold _isThumbFunc. cbn [Symbol.is_function].
  rewrite Z.add_comm, Z.mul_comm, Z_mod_plus_full. reflexivity.
Qed.

(** The Thumb pattern never passes the mask check of [_applyReloc]. *)
Lemma applyReloc_thumb_pattern inst bit_h :
  _applyReloc inst (Z.lor 0xFA bit_h) 0xFF000000 = 0.
Proof.
  unfold _applyReloc.
  rewrite (truthy_of_bit _ 1); [reflexivity|].
  push_testbit. eval_closed. reflexivity.
Qed.

(** C1 (the code departs from the claim).  Whenever the resolved symbol
    is a Thumb function, whatever the instruction and the place, the value
    computed for R_ARM_CALL, R_ARM_PC24 and R_ARM_JUMP24 is 0: the pattern
    [0xFA | bit_h] is handed to [_applyReloc] unshifted under the mask
    [0xFF000000], the mask check fails, and the fallback 0 is returned. *)
Theorem thumb_branch_value_is_zero :
  forall (inst P rel a k : Z) (name : string) (is_rela : bool),
    let sym := Symbol.mk name true a in
    let target := Symbol.mk name true (2 * k + 1) in
    R_ARM_CALL_value (Reloc.mk sym (Reloc.Resolved (Some target)) rel P inst is_rela) = Ok 0.
Proof.
  intros inst P rel a k name is_rela sym target.
  cbv [R_ARM_CALL_value Reloc.resolvedby_addr Reloc.resolvedby Reloc.state Reloc.symbol
       Reloc.rebased_addr Reloc.addend target Symbol.rebased_addr mbind res_bind].
  subst sym. rewrite odd_is_thumb_func.
  cbv [mret res_ret]. rewrite applyReloc_thumb_pattern. reflexivity.
Qed.

(** The test of line 118 reads bit 24 of the word. *)
Lemma PREL31_A_tests_bit_24 addend :
  R_ARM_PREL31_A addend = if Z.testbit addend 24 then Z.lor addend 0xF1000000 else addend.
Proof.
  unfold R_ARM_PREL31_A. change 0x01000000 with (Z.shiftl 1 24).
  rewrite truthy_land_pow2 by lia. reflexivity.
Qed.

(** C3 (the code departs from the claim).  The sign extension of line
    118-119 looks at bit 24 and sets bits 24 and 28 to 31; bit 30, the
    sign of the 31-bit field, is not looked at.  The stored word
    [0x01000000] (a positive field, bit 31 clear) at [S = P = 0] comes
    back as [0xF1000000]; a field with bit 30 set and bit 24 clear is
    left as it is. *)
Theorem prel31_sign_extension_reads_bit_24 :
  (forall addend,
      R_ARM_PREL31_A addend
      = if Z.testbit addend 24 then Z.lor addend 0xF1000000 else addend)
  /\ R_ARM_PREL31_A 0x40000000 = 0x40000000
  /\ R_ARM_PREL31_value
       (Reloc.mk (Symbol.mk "sym" false 0) (Reloc.Resolved (Some (Symbol.mk "sym" false 0)))
                 0 0 0x01000000 false) = Ok 0xF1000000.
Proof.
  split; [exact PREL31_A_tests_bit_24|]. split; reflexivity.
Qed.

(** ** R_ARM_CALL at [P = 0x1000], [S = 0x2000] *)

Lemma land_high_byte inst :
  0 <= inst < 2 ^ 32 -> Z.land inst (Z.lnot 0xFFFFFF) = Z.land inst 0xFF000000.
Proof.
  intros H. apply (fits_range 32) in H; [|lia].
  by_bits 32%nat; solve_fits.
Qed.

Lemma zero_field_no_sign inst :
  Z.land inst 0xFFFFFF = 0 -> R_ARM_CALL_A inst = inst.
Proof.
  intros H. unfold R_ARM_CALL_A.
  replace (Z.land inst 0x00800000) with (Z.land (Z.land inst 0xFFFFFF) 0x00800000).
  - rewrite H. reflexivity.
  - rewrite <- Z.land_assoc. reflexivity.
Qed.

(** C7 (amended).  [P = 0x1000], [S = 0x2000] (an even address, so
    [T = 0]) and an instruction whose 24-bit addend field is 0.  The code
    takes the whole instruction word as [A] (line 74), opcode bits
    included, so the branch value it computes is [0x1000 + 4 * inst]: it
    is [0x1000] on the 26 bits the encoding reads, and [0x1000] itself
    exactly when the instruction word is 0.  The immediate is [0x400] and
    the patched instruction is [(inst & 0xFF000000) | 0x400]. *)
Theorem arm_call_example :
  forall (inst rel a : Z) (name : string) (is_function is_rela : bool),
    0 <= inst < 2 ^ 32 ->
    Z.land inst 0xFFFFFF = 0 ->
    let sym := Symbol.mk name is_function a in
    let target := Symbol.mk name is_function 0x2000 in
    let self := Reloc.mk sym (Reloc.Resolved (Some target)) rel 0x1000 inst is_rela in
    let T := _isThumbFunc sym 0x2000 in
    let result := R_ARM_CALL_result 0x2000 (R_ARM_CALL_A inst) T 0x1000 in
    T = false
    /\ result = 0x1000 + 4 * inst
    /\ Z.land result 0x03FFFFFF = 0x1000
    /\ (inst = 0 <-> result = 0x1000)
    /\ R_ARM_CALL_imm24 result = 0x400
    /\ R_ARM_CALL_value self = Ok (Z.lor (Z.land inst 0xFF000000) 0x400).
Proof.
  intros inst rel a name is_function is_rela Hinst Hfield sym target self T result.
  assert (HT : T = false) by reflexivity.
  assert (Hq : inst = 2 ^ 24 * (inst / 2 ^ 24)).
  { change 0xFFFFFF with (Z.ones 24) in Hfield. rewrite Z.land_ones in Hfield by lia.
    pose proof (Z.div_mod inst (2 ^ 24) ltac:(lia)). lia. }
  assert (Hres : result = 0x1000 + 2 ^ 26 * (inst / 2 ^ 24)).
  { subst result. unfold R_ARM_CALL_result. rewrite HT, zero_field_no_sign by assumption.
    cbn [Z.b2z]. rewrite Z.lor_0_r, Z.shiftl_mul_pow2 by lia. lia. }
  assert (Hlow : Z.land result 0x03FFFFFF = 0x1000).
  { change 0x03FFFFFF with (Z.ones 26). rewrite Z.land_ones, Hres by lia.
    replace (0x1000 + 2 ^ 26 * (inst / 2 ^ 24)) with (0x1000 + (inst / 2 ^ 24) * 2 ^ 26) by lia.
    rewrite Z_mod_plus_full. reflexivity. }
  assert (Himm : R_ARM_CALL_imm24 result = 0x400).
  { unfold R_ARM_CALL_imm24.
    replace (Z.land result 0x03FFFFFE) with (Z.land (Z.land result 0x03FFFFFF) 0x03FFFFFE)
      by (rewrite <- Z.land_assoc; reflexivity).
    rewrite Hlow. reflexivity. }
  split; [exact HT|]. split; [lia|]. split; [exact Hlow|]. split.
  - split; [intros ->; reflexivity|]. lia.
  - split; [exact Himm|].
    change (R_ARM_CALL_value self)
      with (Ok (_applyReloc inst (R_ARM_CALL_imm24 result) 0xFFFFFF)).
    rewrite Himm.
    unfold _applyReloc. change (truthy (Z.land 1024 (Z.lnot 16777215))) with false.
    cbv iota. rewrite land_high_byte by assumption. reflexivity.
Qed.

Lemma arm_call_example_witness :
  0 <= 0xEB000000 < 2 ^ 32
  /\ Z.land 0xEB000000 0xFFFFFF = 0
  /\ R_ARM_CALL_value
       (Reloc.mk (Symbol.mk "callee" true 0) (Reloc.Resolved (Some (Symbol.mk "callee" true 0x2000)))
                 0x1000 0x1000 0xEB000000 false) = Ok 0xEB000400.
Proof.
  split; [lia|]. split; [reflexivity|].
  apply (arm_call_example 0xEB000000 0x1000 0 "callee" true false); [lia|reflexivity].
Defined.

(** C7 as stated fails on a [bl]: for the instruction [0xEB000000]
    (addend field 0) at [P = 0x1000] bound to [S = 0x2000] the branch
    value computed on line 80 is [0x3AC001000], not [0x1000]; the word
    returned is the one the claim gives. *)
Lemma arm_call_branch_value_keeps_opcode :
  Z.land 0xEB000000 0xFFFFFF = 0
  /\ _isThumbFunc (Symbol.mk "callee" true 0) 0x2000 = false
  /\ R_ARM_CALL_result 0x2000 (R_ARM_CALL_A 0xEB000000) false 0x1000 = 0x3AC001000
  /\ R_ARM_CALL_result 0x2000 (R_ARM_CALL_A 0xEB000000) false 0x1000 <> 0x1000
  /\ R_ARM_CALL_value
       (Reloc.mk (Symbol.mk "callee" true 0)
                 (Reloc.Resolved (Some (Symbol.mk "callee" true 0x2000)))
                 0x1000 0x1000 0xEB000000 false) = Ok 0xEB000400.
Proof.
  split; [reflexivity|]. split; [reflexivity|]. split; [reflexivity|].
  split; [vm_compute; discriminate|reflexivity].
Qed.

(** ** R_ARM_THM_CALL *)

Lemma gen_mask_1 k : gen_mask 1 k = Z.shiftl 1 k.
Proof. reflexivity. Qed.

(** Python's truth tests, as bits. *)
Ltac bits_of_truth :=
  rewrite ?gen_mask_1;
  rewrite ?truthy_land_pow2 by lia;
  rewrite ?land_b2z_1, ?not_b2z, ?lxor_b2z, ?truthy_b2z.

(** Within the window, bits 23 to 31 of [x] agree. *)
Lemma in_range_bits x :
  THM_CALL_out_of_range x = false ->
  Z.testbit x 24 = Z.testbit x 23 /\ Z.testbit x 25 = Z.testbit x 23
  /\ Z.testbit x 26 = Z.testbit x 23 /\ Z.testbit x 27 = Z.testbit x 23
  /\ Z.testbit x 28 = Z.testbit x 23 /\ Z.testbit x 29 = Z.testbit x 23
  /\ Z.testbit x 30 = Z.testbit x 23 /\ Z.testbit x 31 = Z.testbit x 23.
Proof.
  unfold THM_CALL_out_of_range. intros H.
  assert (Hc : Z.land x 0xFF800000 = 0 \/ Z.land x 0xFF800000 = 0xFF800000).
  { destruct (Z.eqb_spec (Z.land x 0xFF800000) 0); [auto|].
    destruct (Z.eqb_spec (Z.land x 0xFF800000) 0xFF800000); [auto|discriminate]. }
  assert (Hb : forall k, Z.testbit 0xFF800000 k = true ->
                         Z.testbit x k = Z.testbit x 23).
  { intros k Hk.
    destruct Hc as [Hc|Hc].
    - pose proof (f_equal (fun z => Z.testbit z k) Hc) as H1.
      pose proof (f_equal (fun z => Z.testbit z 23) Hc) as H2.
      cbv beta in H1, H2. rewrite Z.land_spec, Hk, Z.bits_0 in H1.
      rewrite Z.land_spec, Z.bits_0 in H2. change (Z.testbit 0xFF800000 23) with true in H2.
      rewrite andb_true_r in H1, H2. congruence.
    - pose proof (f_equal (fun z => Z.testbit z k) Hc) as H1.
      pose proof (f_equal (fun z => Z.testbit z 23) Hc) as H2.
      cbv beta in H1, H2. rewrite Z.land_spec, Hk in H1.
      rewrite Z.land_spec in H2. change (Z.testbit 0xFF800000 23) with true in H2.
      rewrite andb_true_r in H1, H2. congruence. }
  repeat split; apply Hb; reflexivity.
Qed.

(** The fields of the rebuilt instruction, read off the offset. *)
Lemma encode_fields inst0 x :
  let e := THM_CALL_encode inst0 x in
  Z.testbit e 26 = Z.testbit x 24
  /\ Z.testbit e 13 = xorb (Z.testbit x 23) (negb (Z.testbit x 24))
  /\ Z.testbit e 11 = xorb (Z.testbit x 22) (negb (Z.testbit x 24))
  /\ Z.land e 0x7FF = Z.land (Z.shiftr x 1) 0x7FF
  /\ Z.land (Z.shiftr e 16) 0x3FF = Z.land (Z.shiftr x 12) 0x3FF.
Proof.
  cbv [THM_CALL_encode]. bits_of_truth.
  change (gen_mask 11 1) with 0xFFE. change (gen_mask 10 12) with 0x3FF000.
  split; [bit_goal|]. split; [bit_goal|]. split; [bit_goal|]. split.
  - by_bits 11%nat; solve_fits.
  - by_bits 10%nat; solve_fits.
Qed.

(** Decoding what was encoded gives the offset back, bit 0 apart: the
    encoding has no place for it. *)
Lemma addend_of_encode inst0 x :
  fits 32 x -> THM_CALL_out_of_range x = false ->
  THM_CALL_addend (THM_CALL_encode inst0 x) = Z.land x 0xFFFFFFFE.
Proof.
  intros Hx Hr.
  destruct (in_range_bits x Hr) as (H24 & H25 & H26 & H27 & H28 & H29 & H30 & H31).
  destruct (encode_fields inst0 x) as (E26 & E13 & E11 & Elow & Ehigh).
  generalize dependent (THM_CALL_encode inst0 x). intros e E26 E13 E11 Elow Ehigh.
  cbv [THM_CALL_addend]. bits_of_truth.
  rewrite Z.shiftr_land.
  change (Z.shiftr (gen_mask 10 16) 16) with 0x3FF. change (gen_mask 11 0) with 0x7FF.
  rewrite E26, E13, E11, Elow, Ehigh. clear e E26 E13 E11 Elow Ehigh.
  apply (eq_by_bits 32); [solve_fits|solve_fits|].
  cbv [all_below Z.of_nat Pos.of_succ_nat Pos.succ]; repeat split;
    bit_norm; cbn [andb orb negb xorb];
    rewrite ?H24, ?H25, ?H26, ?H27, ?H28, ?H29, ?H30, ?H31; case_bits.
Qed.

Lemma byte_fits b : fits 8 (byte.unsigned b).
Proof. apply (fits_range 8); [lia|]. apply byte.unsigned_range. Qed.

(** Four bytes make a 32-bit instruction. *)
Lemma inst_fits bs inst : THM_CALL_inst bs = Ok inst -> fits 32 inst.
Proof.
  unfold THM_CALL_inst, byte_at.
  destruct (bs !! 1%nat) as [b1|]; [|discriminate].
  destruct (bs !! 0%nat) as [b0|]; [|discriminate].
  destruct (bs !! 3%nat) as [b3|]; [|discriminate].
  destruct (bs !! 2%nat) as [b2|]; [|discriminate].
  cbn. intros [= <-].
  pose proof (byte_fits b0). pose proof (byte_fits b1).
  pose proof (byte_fits b2). pose proof (byte_fits b3).
  solve_fits.
Qed.

(** The word handed back, stored little-endian and read again as two
    halves, is the rebuilt instruction. *)
Lemma inst_of_result inst :
  fits 32 inst -> THM_CALL_inst (le_split 4 (THM_CALL_result inst)) = Ok inst.
Proof.
  intros Hi. cbv [le_split THM_CALL_inst byte_at]. cbn [lookup list_lookup].
  cbv [mbind res_bind mret res_ret]. f_equal.
  rewrite !byte.unsigned_of_Z. unfold byte.wrap.
  rewrite <- !Z.land_ones by lia. change (Z.ones 8) with 0xFF.
  cbv [THM_CALL_result].
  by_bits 32%nat; solve_fits.
Qed.

Lemma encode_fits inst0 x : fits 32 inst0 -> fits 32 x -> fits 32 (THM_CALL_encode inst0 x).
Proof.
  intros Hi Hx. cbv [THM_CALL_encode]. bits_of_truth.
  change (gen_mask 11 1) with 0xFFE. change (gen_mask 10 12) with 0x3FF000.
  solve_fits.
Qed.

(** The test of line 337, as a window on the 32-bit word. *)
Lemma out_of_range_spec x :
  0 <= x < 2 ^ 32 ->
  THM_CALL_out_of_range x = negb ((x <? 2 ^ 23) || (2 ^ 32 - 2 ^ 23 <=? x)).
Proof.
  intros Hx.
  assert (Hf : fits 32 x) by (apply (fits_range 32); [lia|exact Hx]).
  assert (Hl : Z.land x 0xFF800000 = 2 ^ 23 * (x / 2 ^ 23)).
  { transitivity (Z.shiftl (Z.shiftr x 23) 23).
    - by_bits 32%nat; solve_fits.
    - rewrite Z.shiftl_mul_pow2, Z.shiftr_div_pow2 by lia. lia. }
  unfold THM_CALL_out_of_range. rewrite Hl.
  pose proof (Z.div_mod x (2 ^ 23) ltac:(lia)) as Hd.
  pose proof (Z.mod_pos_bound x (2 ^ 23) ltac:(lia)) as Hm.
  change (2 ^ 23) with 8388608 in *. change (2 ^ 32) with 4294967296 in *.
  destruct (Z.eqb_spec (8388608 * (x / 8388608)) 0);
    destruct (Z.eqb_spec (8388608 * (x / 8388608)) 4286578688);
    destruct (Z.ltb_spec x 8388608);
    destruct (Z.leb_spec (4294967296 - 8388608) x);
    cbn [negb andb orb]; try reflexivity; exfalso; lia.
Qed.

Lemma out_of_range_window x :
  0 <= x < 2 ^ 32 ->
  THM_CALL_out_of_range x = false <-> - (2 ^ 23) <= signed32 x < 2 ^ 23.
Proof.
  intros Hx. rewrite out_of_range_spec by assumption. unfold signed32.
  change (2 ^ 23) with 8388608 in *. change (2 ^ 32) with 4294967296 in *.
  change (2 ^ 31) with 2147483648 in *.
  destruct (Z.ltb_spec x 8388608); destruct (Z.leb_spec (4294967296 - 8388608) x);
    destruct (Z.ltb_spec x 2147483648); cbn [negb orb]; split; intros; try lia; try discriminate;
    reflexivity.
Qed.

Lemma x_range S_ A T P : 0 <= THM_CALL_x S_ A T P < 2 ^ 32.
Proof.
  unfold THM_CALL_x. change 0xFFFFFFFF with (Z.ones 32).
  rewrite Z.land_ones by lia. apply Z.mod_pos_bound. lia.
Qed.

(** [value] reads the world and never writes to it, whatever happens. *)
Lemma value_keeps_world self st :
  world (snd (R_ARM_THM_CALL_value self st)) = world st.
Proof.
  cbv [R_ARM_THM_CALL_value THM_CALL_insn_bytes mbind M_bind Py.bind lift gets modify
       mret M_ret Py.ret raise].
  destruct (Reloc.resolvedby_addr self) as [S_|e]; [|reflexivity].
  destruct (_insn_bytes st) as [bs|].
  - destruct (THM_CALL_inst bs); [|reflexivity].
    match goal with |- context [if ?c then _ else _] => destruct c end; reflexivity.
  - destruct (Clemory.load _ _ _) as [bs|e]; [|reflexivity].
    cbn [world]. destruct (THM_CALL_inst bs); [|reflexivity].
    match goal with |- context [if ?c then _ else _] => destruct c end; reflexivity.
Qed.

(** A resolved record whose four bytes can be read: the outcome of
    [value] is decided by the test of line 337. *)
Lemma value_outcome self sym st bs inst :
  Reloc.resolvedby self = Some sym ->
  fst (THM_CALL_insn_bytes self st) = Ok bs ->
  THM_CALL_inst bs = Ok inst ->
  let S_ := Symbol.rebased_addr sym in
  let A := if Reloc.is_rela self then Reloc.addend self else THM_CALL_addend inst in
  let x := THM_CALL_x S_ A (_isThumbFunc (Reloc.symbol self) S_) (Reloc.rebased_addr self) in
  fst (R_ARM_THM_CALL_value self st)
  = if THM_CALL_out_of_range x then Raise THM_CALL_error
    else Ok (THM_CALL_result (THM_CALL_encode inst x)).
Proof.
  intros Hres Hbs Hinst S_ A x.
  cbv [R_ARM_THM_CALL_value Reloc.resolvedby_addr mbind M_bind Py.bind lift]. rewrite Hres.
  destruct (THM_CALL_insn_bytes self st) as [r st1]. cbn [fst] in Hbs. subst r.
  rewrite Hinst. fold S_. fold A. fold x.
  destruct (THM_CALL_out_of_range x); reflexivity.
Qed.

(** C4.  R_ARM_THM_CALL on a resolved record whose instruction bytes can
    be read: [value] raises [CLEOperationError] exactly when the delta [x]
    of line 333, read as a signed 32-bit number, is outside
    [-2^23 <= x < 2^23]; inside the window it returns the patched word.
    Either way the world, memory and warnings, is the one [value] was
    given. *)
Theorem thm_call_range_check :
  forall (self : Reloc.t) (sym : Symbol.t) (st : thm_state) (bs : list byte) (inst : Z),
    Reloc.resolvedby self = Some sym ->
    fst (THM_CALL_insn_bytes self st) = Ok bs ->
    THM_CALL_inst bs = Ok inst ->
    let S_ := Symbol.rebased_addr sym in
    let A := if Reloc.is_rela self then Reloc.addend self else THM_CALL_addend inst in
    let x := THM_CALL_x S_ A (_isThumbFunc (Reloc.symbol self) S_) (Reloc.rebased_addr self) in
    world (snd (R_ARM_THM_CALL_value self st)) = world st
    /\ (~ (- (2 ^ 23) <= signed32 x < 2 ^ 23) ->
        fst (R_ARM_THM_CALL_value self st) = Raise THM_CALL_error)
    /\ (- (2 ^ 23) <= signed32 x < 2 ^ 23 ->
        fst (R_ARM_THM_CALL_value self st) = Ok (THM_CALL_result (THM_CALL_encode inst x))).
Proof.
  intros self sym st bs inst Hres Hbs Hinst S_ A x.
  split; [apply value_keeps_world|].
  pose proof (value_outcome self sym st bs inst Hres Hbs Hinst) as Hout.
  cbv zeta in Hout. fold S_ A x in Hout.
  pose proof (out_of_range_window x (x_range _ _ _ _)) as Hw.
  destruct (THM_CALL_out_of_range x) eqn:E.
  - split; [intros _; exact Hout|].
    intros Hin. apply Hw in Hin. discriminate.
  - split; [|intros _; exact Hout].
    intros Hn. exfalso. apply Hn, Hw. reflexivity.
Qed.

Lemma thm_call_range_check_witness :
  Reloc.resolvedby far_call = Some (Symbol.mk "far" true 0x2000000)
  /\ fst (THM_CALL_insn_bytes far_call fresh) = Ok [Byte.x00; Byte.xf0; Byte.x00; Byte.xf8]
  /\ THM_CALL_inst [Byte.x00; Byte.xf0; Byte.x00; Byte.xf8] = Ok 0xF000F800
  /\ ~ (- (2 ^ 23) <= signed32 0x1FFF000 < 2 ^ 23)
  /\ fst (R_ARM_THM_CALL_value far_call fresh) = Raise THM_CALL_error
  /\ world (snd (R_ARM_THM_CALL_value far_call fresh)) = world fresh.
Proof.
  assert (Hout : ~ (- (2 ^ 23) <= signed32 0x1FFF000 < 2 ^ 23)).
  { intros [_ H]. vm_compute in H. discriminate. }
  destruct (thm_call_range_check far_call (Symbol.mk "far" true 0x2000000) fresh
              [Byte.x00; Byte.xf0; Byte.x00; Byte.xf8] 0xF000F800 eq_refl eq_refl eq_refl)
    as (Hw & Hraise & _).
  split; [reflexivity|]. split; [reflexivity|]. split; [reflexivity|].
  split; [exact Hout|]. split; [exact (Hraise Hout)|exact Hw].
Defined.

(** C5, as the code has it.  De-interleave any four instruction bytes,
    rebuild the instruction around an offset [x] inside the window, store
    the result little-endian and de-interleave again: the instruction
    read is the one rebuilt, and its decoded addend is [x] with bit 0
    cleared, the encoding holding bits 1 and up only.  For an even [x]
    that is [x] itself, bit for bit. *)
Theorem thm_call_roundtrip :
  forall (bs0 : list byte) (inst0 x : Z),
    THM_CALL_inst bs0 = Ok inst0 ->
    0 <= x < 2 ^ 32 ->
    - (2 ^ 23) <= signed32 x < 2 ^ 23 ->
    let word := THM_CALL_result (THM_CALL_encode inst0 x) in
    THM_CALL_out_of_range x = false
    /\ THM_CALL_inst (le_split 4 word) = Ok (THM_CALL_encode inst0 x)
    /\ THM_CALL_addend (THM_CALL_encode inst0 x) = Z.land x 0xFFFFFFFE
    /\ (Z.even x = true -> THM_CALL_addend (THM_CALL_encode inst0 x) = x).
Proof.
  intros bs0 inst0 x Hinst Hx Hwin word.
  assert (Hr : THM_CALL_out_of_range x = false) by (apply out_of_range_window; assumption).
  assert (Hf : fits 32 x) by (apply (fits_range 32); [lia|exact Hx]).
  split; [exact Hr|]. split.
  - apply inst_of_result, encode_fits; [eapply inst_fits; eassumption|exact Hf].
  - split; [apply addend_of_encode; assumption|].
    intros Heven. rewrite addend_of_encode by assumption.
    assert (H0 : Z.testbit x 0 = false).
    { rewrite Z.bit0_odd, <- Z.negb_even, Heven. reflexivity. }
    apply (eq_by_bits 32); [solve_fits|solve_fits|].
    cbv [all_below Z.of_nat Pos.of_succ_nat Pos.succ]; repeat split;
      bit_norm; cbn [andb]; rewrite ?H0; case_bits.
Qed.

Lemma thm_call_roundtrip_witness :
  THM_CALL_inst [Byte.x00; Byte.xf0; Byte.x00; Byte.xf8] = Ok 0xF000F800
  /\ 0 <= 0xFFFFFFFC < 2 ^ 32
  /\ - (2 ^ 23) <= signed32 0xFFFFFFFC < 2 ^ 23
  /\ Z.even 0xFFFFFFFC = true
  /\ THM_CALL_inst (le_split 4 (THM_CALL_result (THM_CALL_encode 0xF000F800 0xFFFFFFFC)))
     = Ok (THM_CALL_encode 0xF000F800 0xFFFFFFFC)
  /\ THM_CALL_addend (THM_CALL_encode 0xF000F800 0xFFFFFFFC) = 0xFFFFFFFC.
Proof.
  assert (Hx : 0 <= 0xFFFFFFFC < 2 ^ 32) by lia.
  assert (Hw : - (2 ^ 23) <= signed32 0xFFFFFFFC < 2 ^ 23) by (change (signed32 0xFFFFFFFC) with (-4); lia).
  destruct (thm_call_roundtrip [Byte.x00; Byte.xf0; Byte.x00; Byte.xf8] 0xF000F800 0xFFFFFFFC
              eq_refl Hx Hw) as (_ & Hi & _ & He).
  split; [reflexivity|]. split; [exact Hx|]. split; [exact Hw|]. split; [reflexivity|].
  split; [exact Hi|exact (He eq_refl)].
Defined.

(** C5 as stated fails on an odd offset.  A [bl] at [P = 0x1000] to the
    Thumb function at [S = 0x2001] has [x = 0x1001], inside the window;
    [value] returns a word whose decoded addend is [0x1000]. *)
Lemma thm_call_roundtrip_loses_bit_0 :
  THM_CALL_x 0x2001 (THM_CALL_addend 0xF000F800)
             (_isThumbFunc (Reloc.symbol thumb_call) 0x2001) 0x1000
    = 0x1001
  /\ THM_CALL_out_of_range 0x1001 = false
  /\ exists word inst',
      fst (R_ARM_THM_CALL_value thumb_call fresh) = Ok word
      /\ THM_CALL_inst (le_split 4 word) = Ok inst'
      /\ THM_CALL_addend inst' = 0x1000
      /\ THM_CALL_addend inst' <> 0x1001.
Proof.
  split; [reflexivity|]. split; [reflexivity|].
  exists 0xF800F001, 0xF001F800.
  split; [vm_compute; reflexivity|]. split; [vm_compute; reflexivity|].
  split; [reflexivity|]. vm_compute. discriminate.
Qed.

(* --------------------------------------------------------------------- *)
(** ** The data and move relocations, and more on the branches            *)
(* --------------------------------------------------------------------- *)

(** ** The data relocations R_ARM_ABS32 and R_ARM_REL32 *)

Lemma lor_b2z_bounds Y (T : bool) :
  let v := Z.lor Y (Z.b2z T) in
  Y <= v <= Y + 1 /\ v / 2 = Y / 2 /\ (T = false -> v = Y) /\ (T = true -> Z.odd v = true).
Proof.
  intros v. subst v. destruct T; cbn [Z.b2z].
  - assert (H : Z.lor Y 1 = 2 * (Y / 2) + 1).
    { rewrite <- Z.div2_div. rewrite (Z.div2_odd Y) at 1.
      change (2 * Z.div2 Y + 1) with (2 * Z.div2 Y + Z.b2z true).
      change (Z.lor (2 * Z.div2 Y + Z.b2z (Z.odd Y)) 1)
        with (Z.lor (2 * Z.div2 Y + Z.b2z (Z.odd Y)) (2 * 0 + Z.b2z true)).
      apply Z.bits_inj'. intros i Hi.
      destruct (Z.eq_dec i 0) as [->|Hne].
      - rewrite Z.lor_spec, !Z.testbit_0_r, orb_true_r. reflexivity.
      - replace i with (Z.succ (i - 1)) by lia.
        rewrite Z.lor_spec, !Z.testbit_succ_r by lia.
        rewrite Z.bits_0, orb_false_r. reflexivity. }
    rewrite H. pose proof (Z.div_mod Y 2 ltac:(lia)). pose proof (Z.mod_pos_bound Y 2 ltac:(lia)).
    split; [lia|]. split.
    + rewrite Z.add_comm, Z.mul_comm, Z.div_add by lia. reflexivity.
    + split; [discriminate|]. intros _. rewrite Z.add_comm, Z.odd_add_mul_2. reflexivity.
  - rewrite Z.lor_0_r. split; [lia|]. split; [reflexivity|]. split; [reflexivity|discriminate].
Qed.

(** X1. R_ARM_ABS32 and R_ARM_REL32.  The Thumb bit touches bit 0 alone:
    the absolute value is [S + A] or [S + A + 1], has the bits of [S + A]
    from bit 1 up, is [S + A] when [T = 0] and is odd when [T = 1]; the
    PC-relative value is the absolute one minus [P]. *)
Theorem abs32_rel32_thumb_bit :
  forall (self : Reloc.t) (sym : Symbol.t),
    Reloc.resolvedby self = Some sym ->
    let S := Symbol.rebased_addr sym in
    let A := Reloc.addend self in
    let P := Reloc.rebased_addr self in
    let T := _isThumbFunc (Reloc.symbol self) S in
    exists v, R_ARM_ABS32_value self = Ok v
              /\ R_ARM_REL32_value self = Ok (v - P)
              /\ S + A <= v <= S + A + 1
              /\ v / 2 = (S + A) / 2
              /\ (T = false -> v = S + A)
              /\ (T = true -> Z.odd v = true).
Proof.
  intros self sym Hres S A P T.
  exists (Z.lor (S + A) (Z.b2z T)).
  cbv [R_ARM_ABS32_value R_ARM_REL32_value Reloc.resolvedby_addr]. rewrite Hres.
  split; [reflexivity|]. split; [reflexivity|].
  apply lor_b2z_bounds.
Qed.

Lemma abs32_rel32_thumb_bit_witness :
  Reloc.resolvedby thumb_call = Some (Symbol.mk "f" true 0x2001)
  /\ R_ARM_ABS32_value thumb_call = Ok 0x2001
  /\ R_ARM_REL32_value thumb_call = Ok 0x1001.
Proof.
  split; [reflexivity|].
  destruct (abs32_rel32_thumb_bit thumb_call (Symbol.mk "f" true 0x2001) eq_refl)
    as (v & Habs & Hrel & _).
  vm_compute in Habs. injection Habs as <-.
  split; [reflexivity|exact Hrel].
Defined.

(** ** R_ARM_CALL in ARM mode *)

Lemma CALL_A_low24 inst : R_ARM_CALL_A inst mod 2 ^ 24 = inst mod 2 ^ 24.
Proof.
  unfold R_ARM_CALL_A.
  destruct (truthy (Z.land inst 8388608)); [|reflexivity].
  rewrite <- !Z.land_ones by lia.
  by_bits 24%nat; solve_fits.
Qed.

Lemma CALL_imm24_arith result :
  R_ARM_CALL_imm24 result = (result / 4) mod 2 ^ 24.
Proof.
  unfold R_ARM_CALL_imm24. rewrite Z.shiftr_land.
  change (Z.shiftr 0x03FFFFFE 2) with (Z.ones 24).
  rewrite Z.land_ones, Z.shiftr_div_pow2 by lia. reflexivity.
Qed.

Lemma applyReloc_in_mask inst x mask :
  _applyReloc inst (Z.land x mask) mask = Z.lor (Z.land inst (Z.lnot mask)) (Z.land x mask).
Proof.
  unfold _applyReloc.
  rewrite <- (Z.land_assoc x mask (Z.lnot mask)).
  replace (Z.land mask (Z.lnot mask)) with 0.
  - rewrite Z.land_0_r. cbn. rewrite <- Z.land_assoc, Z.land_diag. reflexivity.
  - symmetry. rewrite <- Z.ldiff_land. apply Z.ldiff_diag.
Qed.

(** X2. R_ARM_CALL, R_ARM_PC24 and R_ARM_JUMP24 when the target is not a
    Thumb function.  The value is the instruction with bits 24 and up
    kept and the 24-bit field replaced by [(S + 4*imm - P) / 4] modulo
    [2^24], [imm] being the field found in the instruction: a branch out
    of reach wraps around, and the fallback 0 of [_applyReloc] is never
    taken. *)
Theorem arm_call_arm_mode :
  forall (self : Reloc.t) (sym : Symbol.t),
    Reloc.resolvedby self = Some sym ->
    _isThumbFunc (Reloc.symbol self) (Symbol.rebased_addr sym) = false ->
    let S := Symbol.rebased_addr sym in
    let P := Reloc.rebased_addr self in
    let inst := Reloc.addend self in
    let imm := ((S + 4 * (inst mod 2 ^ 24) - P) / 4) mod 2 ^ 24 in
    R_ARM_CALL_value self = Ok (Z.lor (Z.land inst (Z.lnot 0xFFFFFF)) imm).
Proof.
  intros self sym Hres HT S P inst imm.
  cbv [R_ARM_CALL_value Reloc.resolvedby_addr mbind res_bind mret res_ret]. rewrite Hres.
  rewrite HT. fold S. fold P. fold inst.
  assert (Himm : R_ARM_CALL_imm24 (R_ARM_CALL_result S (R_ARM_CALL_A inst) false P) = imm).
  { rewrite CALL_imm24_arith. unfold R_ARM_CALL_result. cbn [Z.b2z].
    rewrite Z.lor_0_r, Z.shiftl_mul_pow2 by lia. change (2 ^ 2) with 4.
    pose proof (Z.div_mod (R_ARM_CALL_A inst) (2 ^ 24) ltac:(lia)) as Hd.
    rewrite CALL_A_low24 in Hd.
    replace (S + R_ARM_CALL_A inst * 4 - P)
      with ((S + 4 * (inst mod 2 ^ 24) - P) + (2 ^ 24 * (R_ARM_CALL_A inst / 2 ^ 24)) * 4) by lia.
    rewrite Z.div_add by lia.
    rewrite (Z.mul_comm (2 ^ 24)), Z_mod_plus_full. reflexivity. }
  rewrite Himm. f_equal.
  replace imm with (Z.land imm 0xFFFFFF) at 1 2.
  - apply applyReloc_in_mask.
  - change 0xFFFFFF with (Z.ones 24). rewrite Z.land_ones by lia.
    subst imm. apply Z.mod_mod. lia.
Qed.

Lemma arm_call_arm_mode_witness :
  Reloc.resolvedby
    (Reloc.mk (Symbol.mk "callee" true 0) (Reloc.Resolved (Some (Symbol.mk "callee" true 0x2000)))
              0x1000 0x1000 0xEBFFFFFE false) = Some (Symbol.mk "callee" true 0x2000)
  /\ _isThumbFunc (Symbol.mk "callee" true 0) 0x2000 = false
  /\ R_ARM_CALL_value
       (Reloc.mk (Symbol.mk "callee" true 0) (Reloc.Resolved (Some (Symbol.mk "callee" true 0x2000)))
                 0x1000 0x1000 0xEBFFFFFE false) = Ok 0xEB0003FE.
Proof.
  split; [reflexivity|]. split; [reflexivity|].
  apply (arm_call_arm_mode
           (Reloc.mk (Symbol.mk "callee" true 0) (Reloc.Resolved (Some (Symbol.mk "callee" true 0x2000)))
                     0x1000 0x1000 0xEBFFFFFE false)
           (Symbol.mk "callee" true 0x2000)); reflexivity.
Defined.

(** ** R_ARM_MOVW_ABS_NC and R_ARM_MOVT_ABS *)

Lemma lxor_ones_sub a n : 0 <= n -> 0 <= a < 2 ^ n -> Z.lxor a (Z.ones n) = Z.ones n - a.
Proof.
  intros Hn Ha.
  assert (Hf : fits n a) by (apply fits_range; assumption).
  assert (Hl : Z.land a (Z.lxor a (Z.ones n)) = 0).
  { apply Z.bits_inj'. intros i Hi.
    rewrite Z.land_spec, Z.lxor_spec, Z.bits_0.
    destruct (Z.testbit a i) eqn:E; [|reflexivity].
    destruct (Z.lt_ge_cases i n) as [Hlt|Hge].
    - rewrite Z.ones_spec_low by lia. reflexivity.
    - rewrite Hf in E by assumption. discriminate. }
  pose proof (Z.add_nocarry_lxor _ _ Hl) as Hadd.
  rewrite <- Z.lxor_assoc, Z.lxor_nilpotent, Z.lxor_0_l in Hadd. lia.
Qed.

(** The two's complement step of lines 201-203 on a 16-bit field. *)
Lemma sign16 A0 :
  0 <= A0 < 2 ^ 16 ->
  let A := if truthy (Z.land A0 0x8000) then - (Z.lxor A0 0xFFFF + 1) else A0 in
  - (2 ^ 15) <= A < 2 ^ 15 /\ A mod 2 ^ 16 = A0.
Proof.
  intros H0 A. subst A.
  change 0x8000 with (Z.shiftl 1 15). rewrite truthy_land_pow2 by lia.
  change 0xFFFF with (Z.ones 16).
  pose proof (Z.testbit_true A0 15 ltac:(lia)) as Ht.
  pose proof (Z.testbit_false A0 15 ltac:(lia)) as Hf.
  change (2 ^ 15) with 32768 in *. change (2 ^ 16) with 65536 in *.
  pose proof (Z.div_mod A0 32768 ltac:(lia)) as Hd.
  pose proof (Z.mod_pos_bound A0 32768 ltac:(lia)) as Hm.
  assert (Hq : 0 <= A0 / 32768 < 2).
  { split; [apply Z.div_pos; lia|apply Z.div_lt_upper_bound; lia]. }
  destruct (Z.testbit A0 15).
  - rewrite lxor_ones_sub by (change (2 ^ 16) with 65536; lia).
    change (Z.ones 16) with 65535.
    assert (Hodd : (A0 / 32768) mod 2 = 1) by (apply Ht; reflexivity).
    assert (Hq1 : A0 / 32768 = 1).
    { destruct (Z.eq_dec (A0 / 32768) 0) as [E|E]; [rewrite E in Hodd; discriminate|lia]. }
    split; [lia|].
    replace (- (65535 - A0 + 1)) with (A0 + (-1) * 65536) by lia.
    rewrite Z_mod_plus_full. apply Z.mod_small. lia.
  - assert (Hev : (A0 / 32768) mod 2 = 0) by (apply Hf; reflexivity).
    assert (Hq0 : A0 / 32768 = 0).
    { destruct (Z.eq_dec (A0 / 32768) 1) as [E|E]; [rewrite E in Hev; discriminate|lia]. }
    split; [lia|]. apply Z.mod_small. lia.
Qed.

Lemma MOVW_field inst :
  Z.lor (Z.shiftr (Z.land inst 0xF0000) 4) (Z.land inst 0xFFF) = imm16 inst.
Proof. unfold imm16. by_bits 16%nat; solve_fits. Qed.

Lemma imm16_range inst : 0 <= imm16 inst < 2 ^ 16.
Proof. apply (fits_range 16); [lia|]. unfold imm16. solve_fits. Qed.

Lemma MOVW_addend_signed inst :
  - (2 ^ 15) <= MOVW_addend inst < 2 ^ 15
  /\ MOVW_addend inst mod 2 ^ 16 = imm16 inst
  /\ (imm16 inst < 2 ^ 15 -> MOVW_addend inst = imm16 inst)
  /\ (2 ^ 15 <= imm16 inst -> MOVW_addend inst = imm16 inst - 2 ^ 16).
Proof.
  unfold MOVW_addend. cbv zeta. rewrite MOVW_field.
  pose proof (imm16_range inst) as Hr.
  destruct (sign16 (imm16 inst) Hr) as (Hb & Hm). cbv zeta in Hb, Hm.
  set (A := if truthy (Z.land (imm16 inst) 32768) then _ else _) in *.
  split; [exact Hb|]. split; [exact Hm|].
  change (2 ^ 15) with 32768 in *. change (2 ^ 16) with 65536 in *.
  pose proof (Z.div_mod A 65536 ltac:(lia)) as Hd. rewrite Hm in Hd.
  assert (Hq : A / 65536 = 0 \/ A / 65536 = -1) by lia.
  split; intros; lia.
Qed.

(** X3. the addend of an ARM [movw]/[movt] is the 16-bit immediate
    [imm4:imm12] of the instruction read as a two's complement number. *)
Theorem movw_addend_is_signed_imm16 :
  forall inst : Z,
    - (2 ^ 15) <= MOVW_addend inst < 2 ^ 15
    /\ MOVW_addend inst mod 2 ^ 16 = imm16 inst
    /\ (imm16 inst < 2 ^ 15 -> MOVW_addend inst = imm16 inst)
    /\ (2 ^ 15 <= imm16 inst -> MOVW_addend inst = imm16 inst - 2 ^ 16).
Proof. exact MOVW_addend_signed. Qed.

Lemma movw_addend_is_signed_imm16_witness :
  2 ^ 15 <= imm16 0xE30F8FFC /\ MOVW_addend 0xE30F8FFC = -4.
Proof.
  assert (H : 2 ^ 15 <= imm16 0xE30F8FFC) by (vm_compute; discriminate).
  split; [exact H|].
  destruct (movw_addend_is_signed_imm16 0xE30F8FFC) as (_ & _ & _ & Hneg).
  exact (Hneg H).
Defined.

Lemma MOVW_encode_bits inst X :
  let v := MOVW_encode inst X in
  0 <= v < 2 ^ 32
  /\ imm16 v = X mod 2 ^ 16
  /\ Z.land v 0xFFF0F000 = Z.land inst 0xFFF0F000.
Proof.
  cbv [MOVW_encode]. rewrite <- Z.land_ones by lia. change (Z.ones 16) with 0xFFFF.
  split; [apply (fits_range 32); [lia|solve_fits]|]. split.
  - unfold imm16. by_bits 16%nat; solve_fits.
  - by_bits 32%nat; solve_fits.
Qed.

Lemma MOVT_encode_bits inst X :
  let v := MOVT_encode inst X in
  0 <= v < 2 ^ 32
  /\ imm16 v = (X / 2 ^ 16) mod 2 ^ 16
  /\ Z.land v 0xFFF0F000 = Z.land inst 0xFFF0F000.
Proof.
  cbv [MOVT_encode]. rewrite <- Z.land_ones, <- Z.shiftr_div_pow2 by lia.
  change (Z.ones 16) with 0xFFFF.
  split; [apply (fits_range 32); [lia|solve_fits]|]. split.
  - unfold imm16. by_bits 16%nat; solve_fits.
  - by_bits 32%nat; solve_fits.
Qed.

(** X4. R_ARM_MOVW_ABS_NC.  The value is a 32-bit word that holds the low
    16 bits of [(S + A) | T] as its immediate and the bits of the
    instruction everywhere else; decoding the addend of the value gives
    [(S + A) | T] back modulo [2^16]. *)
Theorem movw_abs_nc_encodes_low_half :
  forall (self : Reloc.t) (sym : Symbol.t),
    Reloc.resolvedby self = Some sym ->
    let inst := Reloc.addend self in
    let S := Symbol.rebased_addr sym in
    let T := _isThumbFunc (Reloc.symbol self) S in
    let X := Z.lor (S + MOVW_addend inst) (Z.b2z T) in
    exists v, R_ARM_MOVW_ABS_NC_value self = Ok v
              /\ 0 <= v < 2 ^ 32
              /\ imm16 v = X mod 2 ^ 16
              /\ Z.land v 0xFFF0F000 = Z.land inst 0xFFF0F000
              /\ MOVW_addend v mod 2 ^ 16 = X mod 2 ^ 16.
Proof.
  intros self sym Hres inst S T X.
  exists (MOVW_encode inst X).
  cbv [R_ARM_MOVW_ABS_NC_value Reloc.resolvedby_addr mbind res_bind mret res_ret].
  rewrite Hres. split; [reflexivity|].
  destruct (MOVW_encode_bits inst X) as (Hr & Hi & Hf).
  split; [exact Hr|]. split; [exact Hi|]. split; [exact Hf|].
  destruct (MOVW_addend_signed (MOVW_encode inst X)) as (_ & Hm & _).
  rewrite Hm. exact Hi.
Qed.

Lemma movw_abs_nc_encodes_low_half_witness :
  Reloc.resolvedby movw_f = Some (Symbol.mk "f" true 0x12345679)
  /\ R_ARM_MOVW_ABS_NC_value movw_f = Ok 0xE3050679.
Proof.
  split; [reflexivity|].
  destruct (movw_abs_nc_encodes_low_half movw_f (Symbol.mk "f" true 0x12345679) eq_refl)
    as (v & Hv & _).
  rewrite Hv. vm_compute in Hv. injection Hv as <-. reflexivity.
Defined.

(** X5. R_ARM_MOVT_ABS.  The value holds bits 16 to 31 of [S + A] as its
    immediate and the bits of the instruction everywhere else. *)
Theorem movt_abs_encodes_high_half :
  forall (self : Reloc.t) (sym : Symbol.t),
    Reloc.resolvedby self = Some sym ->
    let inst := Reloc.addend self in
    let S := Symbol.rebased_addr sym in
    let X := S + MOVW_addend inst in
    exists v, R_ARM_MOVT_ABS_value self = Ok v
              /\ 0 <= v < 2 ^ 32
              /\ imm16 v = (X / 2 ^ 16) mod 2 ^ 16
              /\ Z.land v 0xFFF0F000 = Z.land inst 0xFFF0F000.
Proof.
  intros self sym Hres inst S X.
  exists (MOVT_encode inst X).
  cbv [R_ARM_MOVT_ABS_value Reloc.resolvedby_addr mbind res_bind mret res_ret].
  rewrite Hres. split; [reflexivity|]. apply MOVT_encode_bits.
Qed.

Lemma movt_abs_encodes_high_half_witness :
  Reloc.resolvedby movt_f = Some (Symbol.mk "f" true 0x12345679)
  /\ R_ARM_MOVT_ABS_value movt_f = Ok 0xE3410234.
Proof.
  split; [reflexivity|].
  destruct (movt_abs_encodes_high_half movt_f (Symbol.mk "f" true 0x12345679) eq_refl)
    as (v & Hv & _).
  rewrite Hv. vm_compute in Hv. injection Hv as <-. reflexivity.
Defined.

Lemma halves_of_thumb_address Y (T : bool) :
  ((Y / 2 ^ 16) mod 2 ^ 16) * 2 ^ 16 + Z.lor Y (Z.b2z T) mod 2 ^ 16
  = Z.lor Y (Z.b2z T) mod 2 ^ 32.
Proof.
  destruct (lor_b2z_bounds Y T) as (Hb & Hh & _). cbv zeta in Hb, Hh.
  set (v := Z.lor Y (Z.b2z T)) in *.
  assert (Hq : v / 2 ^ 16 = Y / 2 ^ 16).
  { change (2 ^ 16) with (2 * 2 ^ 15). rewrite <- !Z.div_div by lia. rewrite Hh. reflexivity. }
  rewrite <- Hq.
  change (2 ^ 32) with (2 ^ 16 * 2 ^ 16).
  rewrite (Z.rem_mul_r v (2 ^ 16) (2 ^ 16)) by lia. lia.
Qed.

(** X6. a [movw]/[movt] pair carrying the same addend and bound to the same
    symbol loads [(S + A) | T] modulo [2^32]: the immediate of the
    R_ARM_MOVT_ABS value is its high half, the immediate of the
    R_ARM_MOVW_ABS_NC value its low half. *)
Theorem movw_movt_pair_loads_address :
  forall (movw movt : Reloc.t) (sym : Symbol.t) (vw vt : Z),
    Reloc.resolvedby movw = Some sym ->
    Reloc.resolvedby movt = Some sym ->
    MOVW_addend (Reloc.addend movt) = MOVW_addend (Reloc.addend movw) ->
    R_ARM_MOVW_ABS_NC_value movw = Ok vw ->
    R_ARM_MOVT_ABS_value movt = Ok vt ->
    let S := Symbol.rebased_addr sym in
    let A := MOVW_addend (Reloc.addend movw) in
    let T := _isThumbFunc (Reloc.symbol movw) S in
    imm16 vt * 2 ^ 16 + imm16 vw = Z.lor (S + A) (Z.b2z T) mod 2 ^ 32.
Proof.
  intros movw movt sym vw vt Hw Ht HA Hvw Hvt S A T.
  revert Hvw Hvt.
  cbv [R_ARM_MOVW_ABS_NC_value R_ARM_MOVT_ABS_value Reloc.resolvedby_addr
       mbind res_bind mret res_ret].
  rewrite Hw, Ht, HA. fold S. fold A. fold T. intros [= <-] [= <-].
  destruct (MOVW_encode_bits (Reloc.addend movw) (Z.lor (S + A) (Z.b2z T))) as (_ & Hi1 & _).
  destruct (MOVT_encode_bits (Reloc.addend movt) (S + A)) as (_ & Hi2 & _).
  cbv zeta in Hi1, Hi2. rewrite Hi1, Hi2. apply halves_of_thumb_address.
Qed.

Lemma movw_movt_pair_loads_address_witness :
  Reloc.resolvedby movw_f = Some (Symbol.mk "f" true 0x12345679)
  /\ Reloc.resolvedby movt_f = Some (Symbol.mk "f" true 0x12345679)
  /\ MOVW_addend (Reloc.addend movt_f) = MOVW_addend (Reloc.addend movw_f)
  /\ R_ARM_MOVW_ABS_NC_value movw_f = Ok 0xE3050679
  /\ R_ARM_MOVT_ABS_value movt_f = Ok 0xE3410234
  /\ imm16 0xE3410234 * 2 ^ 16 + imm16 0xE3050679 = 0x12345679.
Proof.
  split; [reflexivity|]. split; [reflexivity|]. split; [reflexivity|].
  split; [reflexivity|]. split; [reflexivity|].
  apply (movw_movt_pair_loads_address movw_f movt_f (Symbol.mk "f" true 0x12345679)
           0xE3050679 0xE3410234); reflexivity.
Defined.

(** ** R_ARM_THM_CALL: what the encoder keeps, and the cached bytes *)

Lemma THM_CALL_encode_frame inst x :
  fits 32 inst -> fits 32 x ->
  Z.land (THM_CALL_encode inst x) 0xF800D000 = Z.land inst 0xF800D000.
Proof.
  intros Hi Hx. cbv [THM_CALL_encode]. bits_of_truth.
  change (gen_mask 11 1) with 0xFFE. change (gen_mask 10 12) with 0x3FF000.
  by_bits 32%nat; solve_fits.
Qed.

(** X7. R_ARM_THM_CALL rewrites the offset fields only.  When [value]
    returns a word, the instruction it spells (the word stored
    little-endian and read back as two halves) has bits 27 to 31 and bits
    12, 14 and 15 of the instruction found in memory: the [11110]
    prefix and the bit that tells [bl] from [blx] are never changed. *)
Theorem thm_call_keeps_opcode_bits :
  forall (self : Reloc.t) (sym : Symbol.t) (st : thm_state) (bs : list byte)
         (inst word : Z),
    Reloc.resolvedby self = Some sym ->
    fst (THM_CALL_insn_bytes self st) = Ok bs ->
    THM_CALL_inst bs = Ok inst ->
    fst (R_ARM_THM_CALL_value self st) = Ok word ->
    exists inst',
      THM_CALL_inst (le_split 4 word) = Ok inst'
      /\ Z.land inst' 0xF800D000 = Z.land inst 0xF800D000.
Proof.
  intros self sym st bs inst word Hres Hbs Hinst Hval.
  rewrite (value_outcome self sym st bs inst Hres Hbs Hinst) in Hval.
  match type of Hval with (if ?c then _ else _) = _ => destruct c end; [discriminate|].
  injection Hval as <-.
  pose proof (inst_fits bs inst Hinst) as Hf.
  match goal with |- context [THM_CALL_encode inst ?x] => set (x0 := x) end.
  assert (Hx : fits 32 x0).
  { apply (fits_range 32); [lia|]. apply x_range. }
  exists (THM_CALL_encode inst x0). split.
  - apply inst_of_result, encode_fits; assumption.
  - apply THM_CALL_encode_frame; assumption.
Qed.

Lemma thm_call_keeps_opcode_bits_witness :
  Reloc.resolvedby thumb_call = Some (Symbol.mk "f" true 0x2001)
  /\ fst (THM_CALL_insn_bytes thumb_call fresh) = Ok [Byte.x00; Byte.xf0; Byte.x00; Byte.xf8]
  /\ THM_CALL_inst [Byte.x00; Byte.xf0; Byte.x00; Byte.xf8] = Ok 0xF000F800
  /\ fst (R_ARM_THM_CALL_value thumb_call fresh) = Ok 0xF800F001
  /\ exists inst', THM_CALL_inst (le_split 4 0xF800F001) = Ok inst'
                   /\ Z.land inst' 0xF800D000 = Z.land 0xF000F800 0xF800D000.
Proof.
  assert (Hv : fst (R_ARM_THM_CALL_value thumb_call fresh) = Ok 0xF800F001)
    by (vm_compute; reflexivity).
  split; [reflexivity|]. split; [reflexivity|]. split; [reflexivity|]. split; [exact Hv|].
  exact (thm_call_keeps_opcode_bits thumb_call (Symbol.mk "f" true 0x2001) fresh
           [Byte.x00; Byte.xf0; Byte.x00; Byte.xf8] 0xF000F800 0xF800F001
           eq_refl eq_refl eq_refl Hv).
Defined.

(** X8. R_ARM_THM_CALL reads the instruction once.  After a [value] that
    returned a word, [value] on the same record returns that word again
    whatever the memory holds by then, the patched instruction included:
    the bytes kept in [_insn_bytes] are the ones decoded. *)
Theorem thm_call_value_is_repeatable :
  forall (self : Reloc.t) (st : thm_state) (word : Z),
    fst (R_ARM_THM_CALL_value self st) = Ok word ->
    forall w' : World.t,
      fst (R_ARM_THM_CALL_value self
             (mk_thm (_insn_bytes (snd (R_ARM_THM_CALL_value self st))) w')) = Ok word.
Proof.
  intros self st word.
  cbv [R_ARM_THM_CALL_value THM_CALL_insn_bytes mbind M_bind Py.bind lift gets modify
       mret M_ret Py.ret raise].
  destruct (Reloc.resolvedby_addr self) as [S_|e]; [|discriminate].
  destruct (_insn_bytes st) as [bs|] eqn:Ec.
  - destruct (THM_CALL_inst bs) as [inst|e] eqn:Ei; [|discriminate].
    match goal with |- context [if ?c then _ else _] => destruct c eqn:Er end; [discriminate|].
    cbn [fst snd _insn_bytes]. rewrite Ec. intros Hw w'. cbn [_insn_bytes].
    rewrite Ei, Er. exact Hw.
  - destruct (Clemory.load _ _ _) as [bs|e]; [|discriminate].
    cbn [world _insn_bytes].
    destruct (THM_CALL_inst bs) as [inst|e] eqn:Ei; [|discriminate].
    match goal with |- context [if ?c then _ else _] => destruct c eqn:Er end; [discriminate|].
    cbn [fst snd _insn_bytes]. intros Hw w'. rewrite Ei, Er. exact Hw.
Qed.

Lemma thm_call_value_is_repeatable_witness :
  fst (R_ARM_THM_CALL_value thumb_call fresh) = Ok 0xF800F001
  /\ fst (R_ARM_THM_CALL_value thumb_call
            (mk_thm (_insn_bytes (snd (R_ARM_THM_CALL_value thumb_call fresh)))
                    (World.mk ∅ []))) = Ok 0xF800F001.
Proof.
  assert (Hv : fst (R_ARM_THM_CALL_value thumb_call fresh) = Ok 0xF800F001)
    by (vm_compute; reflexivity).
  split; [exact Hv|].
  exact (thm_call_value_is_repeatable thumb_call fresh 0xF800F001 Hv (World.mk ∅ [])).
Defined.

(** ** R_ARM_THM_MOVW_ABS_NC and R_ARM_THM_MOVT_ABS *)

Lemma inst_of_four bs : length bs = 4%nat -> exists inst, THM_CALL_inst bs = Ok inst.
Proof.
  destruct bs as [|b0 [|b1 [|b2 [|b3 [|b4 bs]]]]]; try discriminate.
  intros _. cbv [THM_CALL_inst byte_at]. cbn [lookup list_lookup].
  cbv [mbind res_bind mret res_ret]. eauto.
Qed.

Lemma THM_MOV_insert_fits inst p1 p2 p3 p4 : fits 32 (THM_MOV_insert inst p1 p2 p3 p4).
Proof. cbv [THM_MOV_insert]. solve_fits. Qed.

Lemma THM_MOVW_encode_bits inst X :
  let e := THM_MOVW_encode inst X in
  thm_imm16 e = X mod 2 ^ 16 /\ Z.land e 0xFBF08F00 = Z.land inst 0xFBF08F00.
Proof.
  cbv [THM_MOVW_encode THM_MOV_insert]. rewrite <- Z.land_ones by lia.
  change (Z.ones 16) with 0xFFFF. split.
  - unfold thm_imm16. by_bits 16%nat; solve_fits.
  - by_bits 32%nat; solve_fits.
Qed.

Lemma THM_MOVT_encode_bits inst X :
  let e := THM_MOVT_encode inst X in
  thm_imm16 e = (X / 2 ^ 16) mod 2 ^ 16 /\ Z.land e 0xFBF08F00 = Z.land inst 0xFBF08F00.
Proof.
  cbv [THM_MOVT_encode THM_MOV_insert]. rewrite <- Z.land_ones, <- Z.shiftr_div_pow2 by lia.
  change (Z.ones 16) with 0xFFFF. split.
  - unfold thm_imm16. by_bits 16%nat; solve_fits.
  - by_bits 32%nat; solve_fits.
Qed.

(** X9. R_ARM_THM_MOVW_ABS_NC on a resolved record whose four bytes can be
    loaded.  [value] returns a word and leaves the world alone; the word,
    stored little-endian and read back as two halves, is an instruction
    whose immediate [imm4:i:imm3:imm8] is [(S + A) | T] modulo [2^16]
    and whose other bits are those of the instruction found. *)
Theorem thm_movw_abs_nc_encodes_low_half :
  forall (self : Reloc.t) (sym : Symbol.t) (w : World.t) (bs : list byte),
    Reloc.resolvedby self = Some sym ->
    Clemory.load (World.memory w) (Reloc.relative_addr self) 4 = Ok bs ->
    exists inst word e,
      THM_CALL_inst bs = Ok inst
      /\ R_ARM_THM_MOVW_ABS_NC_value self w = (Ok word, w)
      /\ THM_CALL_inst (le_split 4 word) = Ok e
      /\ thm_imm16 e
         = Z.lor (Symbol.rebased_addr sym + THM_MOVW_addend inst)
                 (Z.b2z (_isThumbFunc (Reloc.symbol self) (Symbol.rebased_addr sym)))
           mod 2 ^ 16
      /\ Z.land e 0xFBF08F00 = Z.land inst 0xFBF08F00.
Proof.
  intros self sym w bs Hres Hload.
  destruct (inst_of_four bs (ClemoryFacts.load_length _ _ _ _ Hload)) as (inst & Hinst).
  set (X := Z.lor (Symbol.rebased_addr sym + THM_MOVW_addend inst)
                  (Z.b2z (_isThumbFunc (Reloc.symbol self) (Symbol.rebased_addr sym)))).
  exists inst, (THM_CALL_result (THM_MOVW_encode inst X)), (THM_MOVW_encode inst X).
  split; [exact Hinst|]. split.
  - cbv [R_ARM_THM_MOVW_ABS_NC_value load_insn mbind M_bind Py.bind lift mret M_ret Py.ret
         Reloc.resolvedby_addr].
    rewrite Hload, Hinst, Hres. reflexivity.
  - split; [apply inst_of_result, THM_MOV_insert_fits|]. apply THM_MOVW_encode_bits.
Qed.

(** X10. R_ARM_THM_MOVT_ABS, in the same way: the immediate of the
    instruction returned is bits 16 to 31 of [S + A]. *)
Theorem thm_movt_abs_encodes_high_half :
  forall (self : Reloc.t) (sym : Symbol.t) (w : World.t) (bs : list byte),
    Reloc.resolvedby self = Some sym ->
    Clemory.load (World.memory w) (Reloc.relative_addr self) 4 = Ok bs ->
    exists inst word e,
      THM_CALL_inst bs = Ok inst
      /\ R_ARM_THM_MOVT_ABS_value self w = (Ok word, w)
      /\ THM_CALL_inst (le_split 4 word) = Ok e
      /\ thm_imm16 e = ((Symbol.rebased_addr sym + THM_MOVW_addend inst) / 2 ^ 16) mod 2 ^ 16
      /\ Z.land e 0xFBF08F00 = Z.land inst 0xFBF08F00.
Proof.
  intros self sym w bs Hres Hload.
  destruct (inst_of_four bs (ClemoryFacts.load_length _ _ _ _ Hload)) as (inst & Hinst).
  set (X := Symbol.rebased_addr sym + THM_MOVW_addend inst).
  exists inst, (THM_CALL_result (THM_MOVT_encode inst X)), (THM_MOVT_encode inst X).
  split; [exact Hinst|]. split.
  - cbv [R_ARM_THM_MOVT_ABS_value load_insn mbind M_bind Py.bind lift mret M_ret Py.ret
         Reloc.resolvedby_addr].
    rewrite Hload, Hinst, Hres. reflexivity.
  - split; [apply inst_of_result, THM_MOV_insert_fits|]. apply THM_MOVT_encode_bits.
Qed.

Lemma THM_MOVW_field inst :
  Z.lor (Z.lor (Z.lor (Z.shiftl (Z.shiftr (Z.land inst 0x04000000) 26) 15)
                      (Z.shiftl (Z.shiftr (Z.land inst 0x000F0000) 16) 11))
               (Z.shiftl (Z.shiftr (Z.land inst 0x00007000) 12) 8))
        (Z.land inst 0x000000FF)
  = Z.lor (Z.lor (Z.shiftl (Z.land (Z.shiftr inst 26) 1) 15)
                 (Z.shiftl (Z.land (Z.shiftr inst 16) 0xF) 11))
          (Z.land (thm_imm16 inst) 0x7FF).
Proof. unfold thm_imm16. by_bits 16%nat; solve_fits. Qed.

(** X11. the addend the Thumb [movw]/[movt] decoder reads is a 16-bit two's
    complement number with the low 11 bits of the immediate
    [imm4:i:imm3:imm8] (the decoder puts [i] at bit 15 and [imm4] at bits
    11 to 14); it is the immediate itself whenever the immediate is below
    [2^11], as for the usual addend 0. *)
Theorem thm_movw_addend_low_bits :
  forall inst : Z,
    - (2 ^ 15) <= THM_MOVW_addend inst < 2 ^ 15
    /\ THM_MOVW_addend inst mod 2 ^ 11 = thm_imm16 inst mod 2 ^ 11
    /\ (thm_imm16 inst < 2 ^ 11 -> THM_MOVW_addend inst = thm_imm16 inst).
Proof.
  intros inst. unfold THM_MOVW_addend. cbv zeta. rewrite THM_MOVW_field.
  set (A0 := Z.lor (Z.lor (Z.shiftl (Z.land (Z.shiftr inst 26) 1) 15)
                          (Z.shiftl (Z.land (Z.shiftr inst 16) 0xF) 11))
                   (Z.land (thm_imm16 inst) 0x7FF)).
  assert (Hf : fits 16 A0) by (subst A0; solve_fits).
  assert (Hr : 0 <= A0 < 2 ^ 16) by (apply (fits_range 16); [lia|exact Hf]).
  destruct (sign16 A0 Hr) as (Hb & Hm). cbv zeta in Hb, Hm.
  set (A := if truthy (Z.land A0 32768) then _ else _) in *.
  assert (Hlow : A0 mod 2 ^ 11 = thm_imm16 inst mod 2 ^ 11).
  { rewrite <- !Z.land_ones by lia. subst A0. by_bits 11%nat; solve_fits. }
  split; [exact Hb|]. split.
  - rewrite <- Hlow, <- Hm.
    change (2 ^ 16) with (2 ^ 11 * 2 ^ 5).
    rewrite Z.rem_mul_r by lia.
    rewrite (Z.mul_comm (2 ^ 11)), Z_mod_plus_full. symmetry. apply Z.mod_mod. lia.
  - intros Hsmall.
    assert (Ht : fits 11 (thm_imm16 inst)).
    { apply (fits_range 11); [lia|]. split; [|exact Hsmall].
      apply (fits_range 16 (thm_imm16 inst)); [lia|]. unfold thm_imm16. solve_fits. }
    assert (H26 : Z.testbit inst 26 = false).
    { generalize (Ht 11 ltac:(lia)). unfold thm_imm16. bit_goal. }
    assert (H16 : Z.testbit inst 16 = false).
    { generalize (Ht 12 ltac:(lia)). unfold thm_imm16. bit_goal. }
    assert (H17 : Z.testbit inst 17 = false).
    { generalize (Ht 13 ltac:(lia)). unfold thm_imm16. bit_goal. }
    assert (H18 : Z.testbit inst 18 = false).
    { generalize (Ht 14 ltac:(lia)). unfold thm_imm16. bit_goal. }
    assert (H19 : Z.testbit inst 19 = false).
    { generalize (Ht 15 ltac:(lia)). unfold thm_imm16. bit_goal. }
    assert (HA0 : A0 = thm_imm16 inst).
    { subst A0. unfold thm_imm16.
      apply (eq_by_bits 16); [solve_fits|solve_fits|].
      cbv [all_below Z.of_nat Pos.of_succ_nat Pos.succ]; repeat split;
        bit_norm; cbn [andb orb]; rewrite ?H26, ?H16, ?H17, ?H18, ?H19; case_bits. }
    rewrite <- HA0.
    change (2 ^ 15) with 32768 in *. change (2 ^ 16) with 65536 in *.
    change (2 ^ 11) with 2048 in *.
    pose proof (Z.div_mod A 65536 ltac:(lia)) as Hd. rewrite Hm in Hd. lia.
Qed.

Lemma thm_movw_addend_low_bits_witness :
  thm_imm16 0xF2400034 < 2 ^ 11 /\ THM_MOVW_addend 0xF2400034 = 0x34.
Proof.
  assert (H : thm_imm16 0xF2400034 < 2 ^ 11) by reflexivity.
  split; [exact H|].
  destruct (thm_movw_addend_low_bits 0xF2400034) as (_ & _ & Hs).
  exact (Hs H).
Defined.

Lemma thm_movw_abs_nc_encodes_low_half_witness :
  Reloc.resolvedby thm_movw_f = Some (Symbol.mk "f" true 0x12345679)
  /\ Clemory.load movw_bytes 0x1000 4 = Ok [Byte.x40; Byte.xf2; Byte.x00; Byte.x00]
  /\ exists inst word e,
      THM_CALL_inst [Byte.x40; Byte.xf2; Byte.x00; Byte.x00] = Ok inst
      /\ R_ARM_THM_MOVW_ABS_NC_value thm_movw_f (World.mk movw_bytes [])
         = (Ok word, World.mk movw_bytes [])
      /\ THM_CALL_inst (le_split 4 word) = Ok e
      /\ thm_imm16 e = 0x5679.
Proof.
  split; [reflexivity|]. split; [reflexivity|].
  destruct (thm_movw_abs_nc_encodes_low_half thm_movw_f (Symbol.mk "f" true 0x12345679)
              (World.mk movw_bytes []) [Byte.x40; Byte.xf2; Byte.x00; Byte.x00]
              eq_refl eq_refl) as (inst & word & e & Hi & Hv & He & Himm & _).
  exists inst, word, e. split; [exact Hi|]. split; [exact Hv|]. split; [exact He|].
  rewrite Himm. injection Hi as <-. reflexivity.
Defined.

Lemma thm_movt_abs_encodes_high_half_witness :
  Reloc.resolvedby thm_movw_f = Some (Symbol.mk "f" true 0x12345679)
  /\ Clemory.load movw_bytes 0x1000 4 = Ok [Byte.x40; Byte.xf2; Byte.x00; Byte.x00]
  /\ exists inst word e,
      THM_CALL_inst [Byte.x40; Byte.xf2; Byte.x00; Byte.x00] = Ok inst
      /\ R_ARM_THM_MOVT_ABS_value thm_movw_f (World.mk movw_bytes [])
         = (Ok word, World.mk movw_bytes [])
      /\ THM_CALL_inst (le_split 4 word) = Ok e
      /\ thm_imm16 e = 0x1234.
Proof.
  split; [reflexivity|]. split; [reflexivity|].
  destruct (thm_movt_abs_encodes_high_half thm_movw_f (Symbol.mk "f" true 0x12345679)
              (World.mk movw_bytes []) [Byte.x40; Byte.xf2; Byte.x00; Byte.x00]
              eq_refl eq_refl) as (inst & word & e & Hi & Hv & He & Himm & _).
  exists inst, word, e. split; [exact Hi|]. split; [exact Hv|]. split; [exact He|].
  rewrite Himm. injection Hi as <-. reflexivity.
Defined.

End ArmFacts.

(* ===================================================================== *)
(** * Properties of the AArch64 relocations                                *)
(* ===================================================================== *)

Module Arm64Facts.
Import Arm64 Bits BitsFacts Arm64Spec.

(** A bound record is a resolved one: [resolve] sets the flag with the
    binding. *)
Lemma resolved_of_binding self sym :
  Reloc.resolvedby self = Some sym -> Reloc.resolved self = true.
Proof.
  unfold Reloc.resolvedby, Reloc.resolved.
  destruct (Reloc.state self); [discriminate|reflexivity].
Qed.

Lemma patched_fits k old value : fits 32 (patched k old value).
Proof.
  destruct k; cbv [patched adrp_imm adrp_immlo adrp_immhi]; solve_fits.
Qed.

Lemma value_resolved k self sym :
  Reloc.resolvedby self = Some sym -> exists v, value k self = Ok v.
Proof.
  intros H.
  destruct k; cbv [value branch26_value adr_prel_pg_hi21_value abs_lo12_value
                    Reloc.resolvedby_addr]; rewrite H; cbn; eauto.
Qed.

Lemma pack_step addr data old w :
  Clemory.unpack_word (World.memory w) addr 4 = Ok old ->
  fits 32 data ->
  exists m', World.pack_word addr data 4 w = (Ok tt, World.mk m' (World.warnings w))
             /\ Clemory.unpack_word m' addr 4 = Ok data
             /\ same_outside addr (World.memory w) m'.
Proof.
  intros Hold Hfit.
  destruct (ClemoryFacts.pack_unpack _ _ _ _ data Hold) as (m' & Hp & Hu & Hf).
  { apply (fits_range 32) in Hfit; [exact Hfit|lia]. }
  exists m'. unfold World.pack_word. rewrite Hp. auto.
Qed.

(** A resolved record over a readable word: [relocate] returns [True] and
    leaves [patched] at the target, the rest of memory being as before. *)
Lemma relocate_resolved k self sym w old :
  Reloc.resolvedby self = Some sym ->
  Clemory.unpack_word (World.memory w) (Reloc.relative_addr self) 4 = Ok old ->
  exists v w',
    value k self = Ok v
    /\ relocate k self w = (Ok true, w')
    /\ Clemory.unpack_word (World.memory w') (Reloc.relative_addr self) 4
       = Ok (patched k old v)
    /\ same_outside (Reloc.relative_addr self) (World.memory w) (World.memory w').
Proof.
  intros Hres Hold.
  destruct (value_resolved k self sym Hres) as (v & Hv). exists v.
  enough (exists w', relocate k self w = (Ok true, w')
            /\ Clemory.unpack_word (World.memory w') (Reloc.relative_addr self) 4
               = Ok (patched k old v)
            /\ same_outside (Reloc.relative_addr self) (World.memory w) (World.memory w'))
    as (w' & H1 & H2 & H3) by eauto.
  destruct k;
    cbv [relocate R_AARCH64_JUMP26_relocate R_AARCH64_CALL26_relocate
         R_AARCH64_ADR_PREL_PG_HI21_relocate R_AARCH64_ADD_ABS_LO12_NC_relocate
         R_AARCH64_LDST8_ABS_LO12_NC_relocate R_AARCH64_LDST16_ABS_LO12_NC_relocate
         R_AARCH64_LDST32_ABS_LO12_NC_relocate R_AARCH64_LDST64_ABS_LO12_NC_relocate
         R_AARCH64_LDST128_ABS_LO12_NC_relocate abs_lo12_relocate];
    cbv [value] in Hv; rewrite (resolved_of_binding self sym Hres); cbn [negb];
    cbv [mbind M_bind Py.bind mret M_ret Py.ret lift World.unpack_word World.warning modify];
    rewrite Hv.
  all: try match goal with
           | |- context [if negb ?c then _ else _] => destruct (negb c)
           end.
  all: cbn [World.memory World.warnings]; rewrite Hold.
  all: match goal with
       | |- context [World.pack_word ?a ?d 4 ?w0] =>
           destruct (pack_step a d old w0 Hold) as (m' & Hp & Hu & Hf);
           [ first [ apply (patched_fits R_AARCH64_JUMP26 old v)
                   | apply (patched_fits R_AARCH64_ADR_PREL_PG_HI21 old v)
                   | apply (patched_fits R_AARCH64_ADD_ABS_LO12_NC old v)
                   | apply (patched_fits R_AARCH64_LDST16_ABS_LO12_NC old v)
                   | apply (patched_fits R_AARCH64_LDST32_ABS_LO12_NC old v)
                   | apply (patched_fits R_AARCH64_LDST64_ABS_LO12_NC old v)
                   | apply (patched_fits R_AARCH64_LDST128_ABS_LO12_NC old v) ]
           | rewrite Hp; eexists; split; [reflexivity|];
             split; [exact Hu|exact Hf] ]
       end.
Qed.

(** Outside its field, [patched] is the old word. *)
Lemma patched_frame k old v : fits 32 old ->
  forall i, 0 <= i -> Z.testbit (field k) i = false ->
            Z.testbit (patched k old v) i = Z.testbit old i.
Proof.
  intros Hold i Hi.
  destruct (Z.lt_ge_cases i 32) as [Hlt|Hge].
  - revert i Hi Hlt.
    enough (all_below 32 (fun i => Z.testbit (field k) i = false ->
                            Z.testbit (patched k old v) i = Z.testbit old i)) as H.
    { intros i Hi Hlt. apply (all_below_spec 32 _ H). lia. }
    destruct k; cbv [patched field adrp_imm adrp_immlo adrp_immhi all_below
                     Z.of_nat Pos.of_succ_nat Pos.succ];
      repeat split; bit_goal.
  - intros _. rewrite (patched_fits k old v i Hge), (Hold i Hge). reflexivity.
Qed.

(** [Page] truncates to the 4 KiB page. *)
Lemma Page_truncates x : Page x = 4096 * (x / 4096).
Proof.
  unfold Page. rewrite <- Z.ldiff_land.
  change 0xFFF with (Z.ones 12). rewrite Z.ldiff_ones_r by lia.
  rewrite Z.shiftl_mul_pow2, Z.shiftr_div_pow2 by lia.
  change (2 ^ 12) with 4096. lia.
Qed.

Lemma adrp_imm_arith v : adrp_imm v = (v / 4096) mod 2 ^ 21.
Proof.
  unfold adrp_imm. change 0x1FFFFF with (Z.ones 21).
  rewrite Z.land_ones, Z.shiftr_div_pow2 by lia. reflexivity.
Qed.

Lemma adrp_split_arith imm :
  adrp_immlo imm = imm mod 4 /\ adrp_immhi imm = imm / 4.
Proof.
  unfold adrp_immlo, adrp_immhi. change 3 with (Z.ones 2).
  rewrite Z.land_ones, Z.shiftr_div_pow2 by lia. split; reflexivity.
Qed.

Lemma adrp_fields old v :
  let new := patched R_AARCH64_ADR_PREL_PG_HI21 old v in
  Z.land (Z.shiftr new 29) 3 = adrp_immlo (adrp_imm v)
  /\ Z.land (Z.shiftr new 5) 0x7FFFF = adrp_immhi (adrp_imm v).
Proof.
  cbv [patched adrp_imm adrp_immlo adrp_immhi]. split.
  - by_bits 2%nat; solve_fits.
  - by_bits 19%nat; solve_fits.
Qed.



(** C9.  A resolved record over a readable instruction word: [relocate]
    returns [True]; each bit of the word found afterwards that lies
    outside the field of the relocation type is the bit found before, and
    no byte outside the word has changed. *)
Theorem relocate_keeps_bits_outside_field :
  forall (k : kind) (self : Reloc.t) (sym : Symbol.t) (w : World.t) (old : Z),
    Reloc.resolvedby self = Some sym ->
    Clemory.unpack_word (World.memory w) (Reloc.relative_addr self) 4 = Ok old ->
    exists (w' : World.t) (new : Z),
      relocate k self w = (Ok true, w')
      /\ Clemory.unpack_word (World.memory w') (Reloc.relative_addr self) 4 = Ok new
      /\ (forall i, 0 <= i -> Z.testbit (field k) i = false ->
                     Z.testbit new i = Z.testbit old i)
      /\ same_outside (Reloc.relative_addr self) (World.memory w) (World.memory w').
Proof.
  intros k self sym w old Hres Hold.
  destruct (relocate_resolved k self sym w old Hres Hold) as (v & w' & _ & Hrun & Hnew & Hout).
  exists w', (patched k old v). repeat split; try assumption.
  apply patched_frame.
  apply (fits_range 32); [lia|].
  apply (ClemoryFacts.unpack_word_range _ _ 4 _ Hold).
Qed.

(** C6.  ADRP: the value is [Page(S+A) - Page(P)] with [Page] the 4 KiB
    truncation; the 21-bit page count [(value >> 12) & 0x1FFFFF] reaches
    the instruction as its two low bits in [30:29] and its nineteen high
    bits in [23:5]; and at [P = 0x1000], [S + A = 0x3800] the value is
    [0x2000], the page count 2, the low group 2 and the high group 0. *)
Theorem adrp_value_and_encoding :
  forall (self : Reloc.t) (sym : Symbol.t) (w : World.t) (old : Z),
    Reloc.resolvedby self = Some sym ->
    Clemory.unpack_word (World.memory w) (Reloc.relative_addr self) 4 = Ok old ->
    let S := Symbol.rebased_addr sym in
    let A := Reloc.addend self in
    let P := Reloc.rebased_addr self in
    let value := Page (S + A) - Page P in
    let imm := adrp_imm value in
    adr_prel_pg_hi21_value self = Ok value
    /\ (forall x, Page x = 4096 * (x / 4096))
    /\ imm = (value / 4096) mod 2 ^ 21
    /\ adrp_immlo imm = imm mod 4
    /\ adrp_immhi imm = imm / 4
    /\ (exists (w' : World.t) (new : Z),
          R_AARCH64_ADR_PREL_PG_HI21_relocate self w = (Ok true, w')
          /\ Clemory.unpack_word (World.memory w') (Reloc.relative_addr self) 4 = Ok new
          /\ Z.land (Z.shiftr new 29) 3 = adrp_immlo imm
          /\ Z.land (Z.shiftr new 5) 0x7FFFF = adrp_immhi imm)
    /\ (P = 0x1000 -> S + A = 0x3800 ->
        value = 0x2000 /\ imm = 2 /\ adrp_immlo imm = 2 /\ adrp_immhi imm = 0).
Proof.
  intros self sym w old Hres Hold S A P value imm.
  assert (Hv : adr_prel_pg_hi21_value self = Ok value).
  { cbv [adr_prel_pg_hi21_value Reloc.resolvedby_addr]. rewrite Hres. reflexivity. }
  split; [exact Hv|].
  split; [exact Page_truncates|].
  split; [apply adrp_imm_arith|].
  split; [apply adrp_split_arith|].
  split; [apply adrp_split_arith|].
  split.
  - destruct (relocate_resolved R_AARCH64_ADR_PREL_PG_HI21 self sym w old Hres Hold)
      as (v & w' & Hv' & Hrun & Hnew & _).
    cbn [Arm64.value] in Hv'. rewrite Hv in Hv'. injection Hv' as <-.
    exists w', (patched R_AARCH64_ADR_PREL_PG_HI21 old value).
    split; [exact Hrun|]. split; [exact Hnew|].
    apply adrp_fields.
  - intros HP HS. subst value imm. rewrite HP, HS. repeat split; reflexivity.
Qed.



Lemma relocate_keeps_bits_outside_field_witness :
  Reloc.resolvedby bound = Some target
  /\ Clemory.unpack_word adrp_bytes 0x1000 4 = Ok 0x90000000
  /\ exists (w' : World.t) (new : Z),
      relocate R_AARCH64_ADR_PREL_PG_HI21 bound (World.mk adrp_bytes []) = (Ok true, w')
      /\ Clemory.unpack_word (World.memory w') 0x1000 4 = Ok new
      /\ (forall i, 0 <= i -> Z.testbit 0x60FFFFE0 i = false ->
                     Z.testbit new i = Z.testbit 0x90000000 i)
      /\ same_outside 0x1000 adrp_bytes (World.memory w').
Proof.
  split; [reflexivity|]. split; [reflexivity|].
  apply (relocate_keeps_bits_outside_field R_AARCH64_ADR_PREL_PG_HI21 bound target
           (World.mk adrp_bytes []) 0x90000000); reflexivity.
Defined.

Lemma adrp_value_and_encoding_witness :
  Reloc.resolvedby bound = Some target
  /\ Clemory.unpack_word adrp_bytes 0x1000 4 = Ok 0x90000000
  /\ adr_prel_pg_hi21_value bound = Ok 0x2000
  /\ adrp_imm 0x2000 = 2 /\ adrp_immlo 2 = 2 /\ adrp_immhi 2 = 0.
Proof.
  split; [reflexivity|]. split; [reflexivity|].
  destruct (adrp_value_and_encoding bound target (World.mk adrp_bytes []) 0x90000000
              eq_refl eq_refl) as (Hv & _ & _ & _ & _ & _ & Hex).
  destruct (Hex eq_refl eq_refl) as (Hval & Himm & Hlo & Hhi).
  split; [exact Hv|]. split; [exact Himm|]. split; [exact Hlo|exact Hhi].
Defined.

(** ** More on [relocate] *)

(** The bytes a successful load returns are the bytes of the map. *)
Lemma load_lookup m n : forall addr bs,
  Clemory.load m addr n = Ok bs ->
  forall i, (i < n)%nat -> m !! (addr + Z.of_nat i) = bs !! i.
Proof.
  induction n as [|n IH]; intros addr bs; cbn [Clemory.load].
  - intros _ i Hi. lia.
  - destruct (m !! addr) as [b|] eqn:E; [|discriminate].
    destruct (Clemory.load m (addr + 1) n) as [bs'|e] eqn:El; cbn; [|discriminate].
    intros [= <-] i Hi. destruct i as [|i].
    + rewrite Z.add_0_r. exact E.
    + change ((b :: bs') !! S i) with (bs' !! i).
      rewrite <- (IH (addr + 1) bs' El i) by lia.
      f_equal. lia.
Qed.

(** Two memories that agree outside a word and hold the same word there
    are the same memory. *)
Lemma same_word_same_memory addr (m m' : gmap Z byte) word :
  Clemory.unpack_word m addr 4 = Ok word ->
  Clemory.unpack_word m' addr 4 = Ok word ->
  same_outside addr m m' ->
  m' = m.
Proof.
  unfold Clemory.unpack_word.
  destruct (Clemory.load m addr 4) as [bs|e] eqn:E; [|discriminate].
  destruct (Clemory.load m' addr 4) as [bs'|e] eqn:E'; [|discriminate].
  cbn. intros [= H] [= H'] Hout.
  assert (Hbs : bs' = bs).
  { apply le_combine_inj; [|congruence].
    rewrite (ClemoryFacts.load_length _ _ _ _ E), (ClemoryFacts.load_length _ _ _ _ E').
    reflexivity. }
  subst bs'. apply map_eq. intros a.
  destruct (Z.lt_ge_cases a addr) as [Hlt|Hge]; [apply Hout; lia|].
  destruct (Z.lt_ge_cases a (addr + 4)) as [Hin|Hhi]; [|apply Hout; lia].
  replace a with (addr + Z.of_nat (Z.to_nat (a - addr))) by lia.
  rewrite (load_lookup _ _ _ _ E), (load_lookup _ _ _ _ E') by lia. reflexivity.
Qed.

Lemma patched_idempotent k old v : patched k (patched k old v) v = patched k old v.
Proof.
  destruct k; cbv [patched adrp_imm adrp_immlo adrp_immhi]; by_bits 32%nat; solve_fits.
Qed.

(** [relocate_resolved], with the warnings. *)
Lemma relocate_resolved_warnings k self sym w old :
  Reloc.resolvedby self = Some sym ->
  Clemory.unpack_word (World.memory w) (Reloc.relative_addr self) 4 = Ok old ->
  exists v w',
    value k self = Ok v
    /\ relocate k self w = (Ok true, w')
    /\ Clemory.unpack_word (World.memory w') (Reloc.relative_addr self) 4
       = Ok (patched k old v)
    /\ same_outside (Reloc.relative_addr self) (World.memory w) (World.memory w')
    /\ World.warnings w'
       = World.warnings w ++ (if out_of_range k v then ["relocation out of range"%string] else []).
Proof.
  intros Hres Hold.
  destruct (value_resolved k self sym Hres) as (v & Hv). exists v.
  enough (exists w', relocate k self w = (Ok true, w')
            /\ Clemory.unpack_word (World.memory w') (Reloc.relative_addr self) 4
               = Ok (patched k old v)
            /\ same_outside (Reloc.relative_addr self) (World.memory w) (World.memory w')
            /\ World.warnings w'
               = World.warnings w
                 ++ (if out_of_range k v then ["relocation out of range"%string] else []))
    as (w' & H1 & H2 & H3 & H4) by eauto 10.
  destruct k;
    cbv [relocate R_AARCH64_JUMP26_relocate R_AARCH64_CALL26_relocate
         R_AARCH64_ADR_PREL_PG_HI21_relocate R_AARCH64_ADD_ABS_LO12_NC_relocate
         R_AARCH64_LDST8_ABS_LO12_NC_relocate R_AARCH64_LDST16_ABS_LO12_NC_relocate
         R_AARCH64_LDST32_ABS_LO12_NC_relocate R_AARCH64_LDST64_ABS_LO12_NC_relocate
         R_AARCH64_LDST128_ABS_LO12_NC_relocate abs_lo12_relocate out_of_range];
    cbv [value] in Hv; rewrite (resolved_of_binding self sym Hres); cbn [negb];
    cbv [mbind M_bind Py.bind mret M_ret Py.ret lift World.unpack_word World.warning modify];
    rewrite Hv.
  all: try match goal with
           | |- context [if negb ?c then _ else _] => destruct (negb c)
           end.
  all: cbn [World.memory World.warnings]; rewrite Hold.
  all: match goal with
       | |- context [World.pack_word ?a ?d 4 ?w0] =>
           destruct (pack_step a d old w0 Hold) as (m' & Hp & Hu & Hf);
           [ first [ apply (patched_fits R_AARCH64_JUMP26 old v)
                   | apply (patched_fits R_AARCH64_ADR_PREL_PG_HI21 old v)
                   | apply (patched_fits R_AARCH64_ADD_ABS_LO12_NC old v)
                   | apply (patched_fits R_AARCH64_LDST16_ABS_LO12_NC old v)
                   | apply (patched_fits R_AARCH64_LDST32_ABS_LO12_NC old v)
                   | apply (patched_fits R_AARCH64_LDST64_ABS_LO12_NC old v)
                   | apply (patched_fits R_AARCH64_LDST128_ABS_LO12_NC old v) ]
           | rewrite Hp; eexists; split; [reflexivity|];
             split; [exact Hu|]; split; [exact Hf|];
             cbn [World.warnings]; rewrite ?app_nil_r; reflexivity ]
       end.
Qed.

(** X12. applying a relocation twice is applying it once.  A resolved record
    over a readable word: a second [relocate] succeeds like the first and
    leaves the memory the first one left. *)
Theorem relocate_twice_same_memory :
  forall (k : kind) (self : Reloc.t) (sym : Symbol.t) (w : World.t) (old : Z),
    Reloc.resolvedby self = Some sym ->
    Clemory.unpack_word (World.memory w) (Reloc.relative_addr self) 4 = Ok old ->
    exists w1 w2 : World.t,
      relocate k self w = (Ok true, w1)
      /\ relocate k self w1 = (Ok true, w2)
      /\ World.memory w2 = World.memory w1.
Proof.
  intros k self sym w old Hres Hold.
  destruct (relocate_resolved k self sym w old Hres Hold) as (v & w1 & Hv & Hrun & Hnew & _).
  destruct (relocate_resolved k self sym w1 _ Hres Hnew) as (v' & w2 & Hv' & Hrun' & Hnew' & Hout).
  rewrite Hv in Hv'. injection Hv' as <-.
  exists w1, w2. split; [exact Hrun|]. split; [exact Hrun'|].
  rewrite patched_idempotent in Hnew'.
  eapply same_word_same_memory; eassumption.
Qed.

Lemma relocate_twice_same_memory_witness :
  Reloc.resolvedby bound = Some target
  /\ Clemory.unpack_word adrp_bytes 0x1000 4 = Ok 0x90000000
  /\ exists w1 w2 : World.t,
      relocate R_AARCH64_ADR_PREL_PG_HI21 bound (World.mk adrp_bytes []) = (Ok true, w1)
      /\ relocate R_AARCH64_ADR_PREL_PG_HI21 bound w1 = (Ok true, w2)
      /\ World.memory w2 = World.memory w1.
Proof.
  split; [reflexivity|]. split; [reflexivity|].
  apply (relocate_twice_same_memory R_AARCH64_ADR_PREL_PG_HI21 bound target
           (World.mk adrp_bytes []) 0x90000000); reflexivity.
Defined.

(** X13. the range tests are warnings only.  A resolved record over a
    readable word is patched whatever its value; ["relocation out of
    range"] is logged once exactly when the test of the type fails
    (outside [-2^27, 2^27) for the branches, outside [-2^32, 2^32) for
    ADRP), and the low-12 family never logs. *)
Theorem relocate_warns_exactly_out_of_range :
  forall (k : kind) (self : Reloc.t) (sym : Symbol.t) (w : World.t) (old : Z),
    Reloc.resolvedby self = Some sym ->
    Clemory.unpack_word (World.memory w) (Reloc.relative_addr self) 4 = Ok old ->
    exists (v : Z) (w' : World.t),
      value k self = Ok v
      /\ relocate k self w = (Ok true, w')
      /\ Clemory.unpack_word (World.memory w') (Reloc.relative_addr self) 4
         = Ok (patched k old v)
      /\ (out_of_range k v = true ->
          World.warnings w' = World.warnings w ++ ["relocation out of range"%string])
      /\ (out_of_range k v = false -> World.warnings w' = World.warnings w)
      /\ (is_lo12 k = true -> out_of_range k v = false).
Proof.
  intros k self sym w old Hres Hold.
  destruct (relocate_resolved_warnings k self sym w old Hres Hold)
    as (v & w' & Hv & Hrun & Hnew & _ & Hw).
  exists v, w'. split; [exact Hv|]. split; [exact Hrun|]. split; [exact Hnew|].
  split; [intros E; rewrite E in Hw; exact Hw|].
  split; [intros E; rewrite E, app_nil_r in Hw; exact Hw|].
  destruct k; cbn; intros; try discriminate; reflexivity.
Qed.

Lemma relocate_warns_exactly_out_of_range_witness :
  Reloc.resolvedby far_branch = Some far_target
  /\ Clemory.unpack_word adrp_bytes 0x1000 4 = Ok 0x90000000
  /\ value R_AARCH64_JUMP26 far_branch = Ok 0x10000000
  /\ out_of_range R_AARCH64_JUMP26 0x10000000 = true
  /\ exists w', relocate R_AARCH64_JUMP26 far_branch (World.mk adrp_bytes []) = (Ok true, w')
               /\ World.warnings w' = ["relocation out of range"%string].
Proof.
  split; [reflexivity|]. split; [reflexivity|]. split; [reflexivity|]. split; [reflexivity|].
  destruct (relocate_warns_exactly_out_of_range R_AARCH64_JUMP26 far_branch far_target
              (World.mk adrp_bytes []) 0x90000000 eq_refl eq_refl)
    as (v & w' & Hv & Hrun & _ & Hout & _).
  injection Hv as <-.
  exists w'. split; [exact Hrun|]. exact (Hout eq_refl).
Defined.

Lemma branch26_field old v :
  Z.land (Z.lor (Z.land old 0xFC000000) (Z.land (Z.shiftr v 2) 0x03FFFFFF)) 0x03FFFFFF
  = (v / 4) mod 2 ^ 26.
Proof.
  replace (v / 4) with (Z.shiftr v 2) by (rewrite Z.shiftr_div_pow2 by lia; reflexivity).
  rewrite <- Z.land_ones by lia. change (Z.ones 26) with 0x03FFFFFF.
  by_bits 26%nat; solve_fits.
Qed.

Lemma sext_mod n q :
  0 < n -> - (2 ^ (n - 1)) <= q < 2 ^ (n - 1) -> sext n (q mod 2 ^ n) = q.
Proof.
  intros Hn Hq. unfold sext.
  assert (Hp : 2 ^ n = 2 * 2 ^ (n - 1)).
  { replace n with (Z.succ (n - 1)) at 1 by lia. apply Z.pow_succ_r. lia. }
  assert (Hpos : 0 < 2 ^ (n - 1)) by (apply Z.pow_pos_nonneg; lia).
  destruct (Z.lt_ge_cases q 0) as [Hneg|Hnn].
  - replace (q mod 2 ^ n) with (q + 2 ^ n).
    + destruct (Z.ltb_spec (q + 2 ^ n) (2 ^ (n - 1))); lia.
    + symmetry. rewrite <- (Z_mod_plus_full q 1 (2 ^ n)). rewrite Z.mul_1_l.
      apply Z.mod_small. lia.
  - rewrite Z.mod_small by lia.
    destruct (Z.ltb_spec q (2 ^ (n - 1))); lia.
Qed.

(** X14. R_AARCH64_JUMP26 and R_AARCH64_CALL26.  The 26-bit field of the
    patched word is [(S + A - P) / 4] modulo [2^26]; for a value inside
    [-2^27, 2^27) that is a multiple of 4, the field read as a signed
    word count gives the value back. *)
Theorem branch26_field_decodes_to_value :
  forall (k : kind) (self : Reloc.t) (sym : Symbol.t) (w : World.t) (old : Z),
    is_branch26 k = true ->
    Reloc.resolvedby self = Some sym ->
    Clemory.unpack_word (World.memory w) (Reloc.relative_addr self) 4 = Ok old ->
    let v := Symbol.rebased_addr sym + Reloc.addend self - Reloc.rebased_addr self in
    exists (w' : World.t) (new : Z),
      relocate k self w = (Ok true, w')
      /\ Clemory.unpack_word (World.memory w') (Reloc.relative_addr self) 4 = Ok new
      /\ Z.land new 0x03FFFFFF = (v / 4) mod 2 ^ 26
      /\ (- (2 ^ 27) <= v < 2 ^ 27 -> v mod 4 = 0 ->
          4 * sext 26 (Z.land new 0x03FFFFFF) = v).
Proof.
  intros k self sym w old Hk Hres Hold v.
  destruct (relocate_resolved k self sym w old Hres Hold) as (v' & w' & Hv & Hrun & Hnew & _).
  assert (Hvv : v' = v).
  { destruct k; try discriminate;
      cbv [value branch26_value Reloc.resolvedby_addr mbind res_bind mret res_ret] in Hv;
      rewrite Hres in Hv; injection Hv as <-; reflexivity. }
  subst v'.
  exists w', (patched k old v). split; [exact Hrun|]. split; [exact Hnew|].
  assert (Hfield : Z.land (patched k old v) 0x03FFFFFF = (v / 4) mod 2 ^ 26).
  { destruct k; try discriminate; apply branch26_field. }
  split; [exact Hfield|].
  intros Hrange Hal. rewrite Hfield.
  rewrite sext_mod.
  - pose proof (Z.div_mod v 4 ltac:(lia)). lia.
  - lia.
  - change (2 ^ (26 - 1)) with 33554432. change (2 ^ 27) with 134217728 in Hrange.
    pose proof (Z.div_mod v 4 ltac:(lia)). lia.
Qed.

Lemma branch26_field_decodes_to_value_witness :
  is_branch26 R_AARCH64_CALL26 = true
  /\ Reloc.resolvedby bound = Some target
  /\ Clemory.unpack_word adrp_bytes 0x1000 4 = Ok 0x90000000
  /\ - (2 ^ 27) <= 0x3800 + 0 - 0x1000 < 2 ^ 27
  /\ (0x3800 + 0 - 0x1000) mod 4 = 0
  /\ exists (w' : World.t) (new : Z),
      relocate R_AARCH64_CALL26 bound (World.mk adrp_bytes []) = (Ok true, w')
      /\ Clemory.unpack_word (World.memory w') 0x1000 4 = Ok new
      /\ 4 * sext 26 (Z.land new 0x03FFFFFF) = 0x2800.
Proof.
  assert (Hr : - (2 ^ 27) <= 0x3800 + 0 - 0x1000 < 2 ^ 27) by lia.
  split; [reflexivity|]. split; [reflexivity|]. split; [reflexivity|]. split; [exact Hr|].
  split; [reflexivity|].
  destruct (branch26_field_decodes_to_value R_AARCH64_CALL26 bound target
              (World.mk adrp_bytes []) 0x90000000 eq_refl eq_refl eq_refl)
    as (w' & new & Hrun & Hnew & _ & Hdec).
  exists w', new. split; [exact Hrun|]. split; [exact Hnew|].
  exact (Hdec Hr eq_refl).
Defined.

Lemma lo12_field k old v :
  is_lo12 k = true ->
  Z.land (Z.shiftr (patched k old v) 10) 0xFFF = (v mod 4096) / 2 ^ scale k.
Proof.
  intros Hk.
  transitivity (Z.shiftr (Z.land v 0xFFF) (scale k)).
  - destruct k; try discriminate; cbv [patched scale]; by_bits 12%nat; solve_fits.
  - change 0xFFF with (Z.ones 12). rewrite Z.land_ones by lia.
    rewrite Z.shiftr_div_pow2 by (destruct k; cbn; lia). reflexivity.
Qed.

(** X15. the low-12 absolute family.  The 12-bit field at bits [21:10] of
    the patched word is [((S + A) mod 4096) / 2^scale], the scale being 0
    for ADD and LDST8 and 1, 2, 3, 4 for LDST16, 32, 64, 128; when
    [S + A] is aligned to the access size, the field times the size is
    the page offset of [S + A]. *)
Theorem lo12_field_is_scaled_page_offset :
  forall (k : kind) (self : Reloc.t) (sym : Symbol.t) (w : World.t) (old : Z),
    is_lo12 k = true ->
    Reloc.resolvedby self = Some sym ->
    Clemory.unpack_word (World.memory w) (Reloc.relative_addr self) 4 = Ok old ->
    let v := Symbol.rebased_addr sym + Reloc.addend self in
    exists (w' : World.t) (new : Z),
      relocate k self w = (Ok true, w')
      /\ Clemory.unpack_word (World.memory w') (Reloc.relative_addr self) 4 = Ok new
      /\ Z.land (Z.shiftr new 10) 0xFFF = (v mod 4096) / 2 ^ scale k
      /\ (v mod 2 ^ scale k = 0 ->
          2 ^ scale k * Z.land (Z.shiftr new 10) 0xFFF = v mod 4096).
Proof.
  intros k self sym w old Hk Hres Hold v.
  destruct (relocate_resolved k self sym w old Hres Hold) as (v' & w' & Hv & Hrun & Hnew & _).
  assert (Hvv : v' = v).
  { destruct k; try discriminate;
      cbv [value abs_lo12_value Reloc.resolvedby_addr mbind res_bind mret res_ret] in Hv;
      rewrite Hres in Hv; injection Hv as <-; reflexivity. }
  subst v'.
  exists w', (patched k old v). split; [exact Hrun|]. split; [exact Hnew|].
  rewrite (lo12_field k old v Hk). split; [reflexivity|].
  intros Hal.
  assert (Hs : 0 <= scale k <= 12) by (destruct k; cbn; lia).
  assert (Hdiv : (v mod 4096) mod 2 ^ scale k = 0).
  { change 4096 with (2 ^ 12). replace 12 with (scale k + (12 - scale k)) by lia.
    rewrite Z.pow_add_r by lia.
    rewrite Z.rem_mul_r by (try apply Z.pow_nonzero; try apply Z.pow_pos_nonneg; lia).
    rewrite Hal, Z.add_0_l, Z.mul_comm. apply Z.mod_mul.
    apply Z.pow_nonzero; lia. }
  pose proof (Z.div_mod (v mod 4096) (2 ^ scale k) ltac:(apply Z.pow_nonzero; lia)). lia.
Qed.

Lemma lo12_field_is_scaled_page_offset_witness :
  is_lo12 R_AARCH64_LDST64_ABS_LO12_NC = true
  /\ Reloc.resolvedby bound_add = Some target
  /\ Clemory.unpack_word adrp_bytes 0x1000 4 = Ok 0x90000000
  /\ (0x3800 + 0) mod 2 ^ scale R_AARCH64_LDST64_ABS_LO12_NC = 0
  /\ exists (w' : World.t) (new : Z),
      relocate R_AARCH64_LDST64_ABS_LO12_NC bound_add (World.mk adrp_bytes []) = (Ok true, w')
      /\ Clemory.unpack_word (World.memory w') 0x1000 4 = Ok new
      /\ 8 * Z.land (Z.shiftr new 10) 0xFFF = 0x800.
Proof.
  split; [reflexivity|]. split; [reflexivity|]. split; [reflexivity|]. split; [reflexivity|].
  destruct (lo12_field_is_scaled_page_offset R_AARCH64_LDST64_ABS_LO12_NC bound_add target
              (World.mk adrp_bytes []) 0x90000000 eq_refl eq_refl eq_refl)
    as (w' & new & Hrun & Hnew & _ & Hal).
  exists w', new. split; [exact Hrun|]. split; [exact Hnew|].
  exact (Hal eq_refl).
Defined.

(** A word away from the four bytes a relocation wrote reads as before. *)
Lemma unpack_word_outside addr a (m m' : gmap Z byte) :
  same_outside addr m m' ->
  a + 4 <= addr \/ addr + 4 <= a ->
  Clemory.unpack_word m' a 4 = Clemory.unpack_word m a 4.
Proof.
  intros Hout Hd. unfold Clemory.unpack_word. cbn [Clemory.load].
  rewrite !Hout by lia. reflexivity.
Qed.

Lemma adrp_imm_joined old v :
  let new := patched R_AARCH64_ADR_PREL_PG_HI21 old v in
  Z.lor (Z.shiftl (Z.land (Z.shiftr new 5) 0x7FFFF) 2) (Z.land (Z.shiftr new 29) 3)
  = adrp_imm v.
Proof.
  cbv [patched adrp_imm adrp_immlo adrp_immhi].
  by_bits 21%nat; solve_fits.
Qed.

Lemma add_lo12_field old v :
  Z.land (Z.shiftr (patched R_AARCH64_ADD_ABS_LO12_NC old v) 10) 0xFFF = v mod 4096.
Proof.
  change 4096 with (2 ^ 12). rewrite <- Z.land_ones by lia. change (Z.ones 12) with 0xFFF.
  cbv [patched]. by_bits 12%nat; solve_fits.
Qed.

(** X16. an ADRP/ADD pair reaches its symbol.  R_AARCH64_ADR_PREL_PG_HI21
    on one word and then R_AARCH64_ADD_ABS_LO12_NC on another, for the
    same symbol and addend and a page distance inside [-2^32, 2^32): the
    [adrp] word is still as patched after the [add] was, and the page of
    [P], plus 4096 times the signed 21-bit immediate of the [adrp], plus
    the 12-bit immediate of the [add], is [S + A]. *)
Theorem adrp_add_pair_reaches_symbol :
  forall (adrp add : Reloc.t) (sym : Symbol.t) (w : World.t) (old_adrp old_add : Z),
    Reloc.resolvedby adrp = Some sym ->
    Reloc.resolvedby add = Some sym ->
    Reloc.addend add = Reloc.addend adrp ->
    Reloc.relative_addr adrp + 4 <= Reloc.relative_addr add
      \/ Reloc.relative_addr add + 4 <= Reloc.relative_addr adrp ->
    Clemory.unpack_word (World.memory w) (Reloc.relative_addr adrp) 4 = Ok old_adrp ->
    Clemory.unpack_word (World.memory w) (Reloc.relative_addr add) 4 = Ok old_add ->
    let S := Symbol.rebased_addr sym in
    let A := Reloc.addend adrp in
    let P := Reloc.rebased_addr adrp in
    - (2 ^ 32) <= Page (S + A) - Page P < 2 ^ 32 ->
    exists (w1 w2 : World.t) (new_adrp new_add : Z),
      relocate R_AARCH64_ADR_PREL_PG_HI21 adrp w = (Ok true, w1)
      /\ relocate R_AARCH64_ADD_ABS_LO12_NC add w1 = (Ok true, w2)
      /\ World.warnings w2 = World.warnings w
      /\ Clemory.unpack_word (World.memory w2) (Reloc.relative_addr adrp) 4 = Ok new_adrp
      /\ Clemory.unpack_word (World.memory w2) (Reloc.relative_addr add) 4 = Ok new_add
      /\ Page P
         + 4096 * sext 21 (Z.lor (Z.shiftl (Z.land (Z.shiftr new_adrp 5) 0x7FFFF) 2)
                                 (Z.land (Z.shiftr new_adrp 29) 3))
         + Z.land (Z.shiftr new_add 10) 0xFFF
         = S + A.
Proof.
  intros adrp add sym w olda oldb Hra Hrb HA Hd Holda Holdb S A P Hrange.
  destruct (relocate_resolved_warnings R_AARCH64_ADR_PREL_PG_HI21 adrp sym w olda Hra Holda)
    as (va & w1 & Hva & Hrun1 & Hnew1 & Hout1 & Hw1).
  assert (Eva : va = Page (S + A) - Page P).
  { cbv [value adr_prel_pg_hi21_value Reloc.resolvedby_addr mbind res_bind mret res_ret] in Hva.
    rewrite Hra in Hva. injection Hva as <-. reflexivity. }
  assert (Holdb1 : Clemory.unpack_word (World.memory w1) (Reloc.relative_addr add) 4 = Ok oldb).
  { rewrite (unpack_word_outside _ _ _ _ Hout1) by lia. exact Holdb. }
  destruct (relocate_resolved_warnings R_AARCH64_ADD_ABS_LO12_NC add sym w1 oldb Hrb Holdb1)
    as (vb & w2 & Hvb & Hrun2 & Hnew2 & Hout2 & Hw2).
  assert (Evb : vb = S + A).
  { cbv [value abs_lo12_value Reloc.resolvedby_addr mbind res_bind mret res_ret] in Hvb.
    rewrite Hrb, HA in Hvb. injection Hvb as <-. reflexivity. }
  exists w1, w2, (patched R_AARCH64_ADR_PREL_PG_HI21 olda va),
         (patched R_AARCH64_ADD_ABS_LO12_NC oldb vb).
  split; [exact Hrun1|]. split; [exact Hrun2|].
  split.
  { rewrite Hw2, Hw1. cbn [out_of_range].
    replace (negb ((- 2 ^ 32 <=? va) && (va <? 2 ^ 32))) with false.
    - rewrite !app_nil_r. reflexivity.
    - symmetry. apply negb_false_iff, andb_true_iff.
      split; [apply Z.leb_le|apply Z.ltb_lt]; lia. }
  split.
  { rewrite (unpack_word_outside _ _ _ _ Hout2) by lia. exact Hnew1. }
  split; [exact Hnew2|].
  rewrite (adrp_imm_joined olda va), (add_lo12_field oldb vb), adrp_imm_arith.
  assert (Hmul : va = 4096 * ((S + A) / 4096 - P / 4096)).
  { rewrite Eva, !Page_truncates. lia. }
  assert (Hq : va / 4096 = (S + A) / 4096 - P / 4096).
  { rewrite Hmul, Z.mul_comm. apply Z.div_mul. lia. }
  rewrite Hq, sext_mod.
  - rewrite Page_truncates, Evb.
    pose proof (Z.div_mod (S + A) 4096 ltac:(lia)). lia.
  - lia.
  - change (2 ^ (21 - 1)) with 1048576. change (2 ^ 32) with 4294967296 in Hrange. lia.
Qed.

Lemma adrp_add_pair_reaches_symbol_witness :
  Reloc.resolvedby bound = Some target
  /\ Reloc.resolvedby pair_add = Some target
  /\ Reloc.addend pair_add = Reloc.addend bound
  /\ Clemory.unpack_word pair_bytes 0x1000 4 = Ok 0x90000000
  /\ Clemory.unpack_word pair_bytes 0x1004 4 = Ok 0x91000000
  /\ - (2 ^ 32) <= Page (0x3800 + 0) - Page 0x1000 < 2 ^ 32
  /\ exists (w1 w2 : World.t) (new_adrp new_add : Z),
      relocate R_AARCH64_ADR_PREL_PG_HI21 bound (World.mk pair_bytes []) = (Ok true, w1)
      /\ relocate R_AARCH64_ADD_ABS_LO12_NC pair_add w1 = (Ok true, w2)
      /\ Clemory.unpack_word (World.memory w2) 0x1000 4 = Ok new_adrp
      /\ Clemory.unpack_word (World.memory w2) 0x1004 4 = Ok new_add
      /\ 0x1000
         + 4096 * sext 21 (Z.lor (Z.shiftl (Z.land (Z.shiftr new_adrp 5) 0x7FFFF) 2)
                                 (Z.land (Z.shiftr new_adrp 29) 3))
         + Z.land (Z.shiftr new_add 10) 0xFFF
         = 0x3800.
Proof.
  assert (Hr : - (2 ^ 32) <= Page (0x3800 + 0) - Page 0x1000 < 2 ^ 32)
    by (change (Page (0x3800 + 0)) with 0x3000; change (Page 0x1000) with 0x1000; lia).
  split; [reflexivity|]. split; [reflexivity|]. split; [reflexivity|].
  split; [reflexivity|]. split; [reflexivity|]. split; [exact Hr|].
  assert (Hd : Reloc.relative_addr bound + 4 <= Reloc.relative_addr pair_add
               \/ Reloc.relative_addr pair_add + 4 <= Reloc.relative_addr bound)
    by (left; cbn [Reloc.relative_addr bound pair_add]; lia).
  destruct (adrp_add_pair_reaches_symbol bound pair_add target (World.mk pair_bytes [])
              0x90000000 0x91000000 eq_refl eq_refl eq_refl Hd eq_refl eq_refl Hr)
    as (w1 & w2 & na & nb & H1 & H2 & _ & H3 & H4 & H5).
  exists w1, w2, na, nb.
  split; [exact H1|]. split; [exact H2|]. split; [exact H3|]. split; [exact H4|exact H5].
Defined.

End Arm64Facts.

(* ===================================================================== *)
(** * Properties of the PE base-relocation dispatcher                      *)
(* ===================================================================== *)

Module PEFacts.
Import PE PESpec.

Section Dispatcher.
Context {RelocClass : Type} (get_relocation : string -> Z -> option RelocClass).

Lemma extends_refl (self : PE.t RelocClass) : extends self self.
Proof.
  repeat split; auto. exists []. rewrite app_nil_r. split; congruence.
Qed.

Lemma extends_trans (a b c : PE.t RelocClass) :
  extends a b -> extends b c -> extends a c.
Proof.
  intros (Ha & Hw & Hp & n1 & Hr1 & Hn1) (Ha' & Hw' & Hp' & n2 & Hr2 & Hn2).
  repeat split; try congruence; auto.
  exists (n1 ++ n2). split.
  - rewrite Hr2, Hr1, app_assoc. reflexivity.
  - intros Hne. destruct n2 as [|r n2].
    + rewrite app_nil_r in Hne. auto.
    + apply Hn2. discriminate.
Qed.

Lemma extends_register (reloc_ : option (reloc RelocClass)) (self : PE.t RelocClass) :
  extends self (register reloc_ self).
Proof.
  destruct reloc_ as [r|]; [|apply extends_refl].
  repeat split; auto. exists [r]. split; auto.
Qed.

Lemma entries_loop_extends entries entry_idx self :
  exists self', entries_loop get_relocation entries entry_idx self = Ok self'
                /\ extends self self'.
Proof.
  funelim (entries_loop get_relocation entries entry_idx self);
    try (rewrite <- Heqcall; clear Heqcall).
  - eauto using extends_refl.
  - exfalso. match goal with H : _ !! _ = None |- _ => apply lookup_ge_None in H; lia end.
  - match goal with IH : exists _, _ |- _ => destruct IH as (self' & Hrun & Hext) end.
    exists self'. split; [exact Hrun|].
    eapply extends_trans; [apply extends_register|exact Hext].
  - exfalso. match goal with H : Nat.eqb _ _ = true |- _ => apply Nat.eqb_eq in H; lia end.
  - match goal with IH : exists _, _ |- _ => destruct IH as (self' & Hrun & Hext) end.
    exists self'. split; [exact Hrun|].
    eapply extends_trans; [apply extends_register|exact Hext].
  - exfalso. match goal with H : _ !! _ = None |- _ => apply lookup_ge_None in H; lia end.
Qed.

Lemma blocks_loop_extends blocks self :
  exists self', blocks_loop get_relocation blocks self = Ok self'
                /\ extends self self'.
Proof.
  revert self. induction blocks as [|entries rest IH]; intros self; cbn [blocks_loop].
  - eauto using extends_refl.
  - destruct (entries_loop_extends entries 0 self) as (s1 & Hrun & Hext).
    rewrite Hrun. cbn.
    destruct (IH s1) as (s2 & Hrun2 & Hext2).
    exists s2. split; [exact Hrun2|]. eapply extends_trans; eauto.
Qed.

Lemma register_relocs_extends directory self :
  exists self', __register_relocs get_relocation directory self
                = Ok (match directory with None => [] | Some _ => relocs self' end, self')
                /\ extends self self'.
Proof.
  destruct directory as [blocks|]; cbn [__register_relocs].
  - destruct (blocks_loop_extends blocks self) as (s1 & Hrun & Hext).
    rewrite Hrun. cbn. eauto.
  - eauto using extends_refl.
Qed.

(** A HIGHADJ entry met at the cursor: the record is built from that one
    entry alone, its own [rva] standing in for the adjustment, and the
    cursor moves on by two. *)
Lemma entries_loop_highadj entries entry_idx self reloc_data :
  entries !! entry_idx = Some reloc_data ->
  type reloc_data = IMAGE_REL_BASED_HIGHADJ ->
  entries_loop get_relocation entries entry_idx self =
  entries_loop get_relocation entries (entry_idx + 1 + 1)
    (register (Some (HIGHADJ (rva reloc_data) (rva reloc_data))) self).
Proof.
  intros Hlook Hty.
  pose proof (lookup_lt_Some _ _ _ Hlook) as Hlt.
  simp entries_loop.
  destruct (lt_dec entry_idx (length entries)) as [Hl|Hl]; [|lia].
  cbn. rewrite Hlook. cbn. rewrite Hty. cbn.
  destruct (Nat.eqb_spec entry_idx (length entries)) as [He|He]; [lia|].
  cbn. rewrite Hlook. cbn. rewrite Hty. simp entries_loop. reflexivity.
Qed.

End Dispatcher.

(** C2 (the code departs from the claim).  A HIGHADJ entry does take two
    directory entries, and the entry after it is never dispatched on its
    own; but the record is built with the HIGHADJ entry's own [rva] as
    [next_rva], whatever the second entry holds, and a HIGHADJ entry that
    ends a block is turned into a record in the same way, without any
    warning: the test of line 312 sits inside the loop guard
    [entry_idx < len(entries)] and never holds, so that no block at all
    makes the dispatcher warn. *)
Theorem highadj_reads_its_own_entry :
  forall (RelocClass : Type) (get_relocation : string -> Z -> option RelocClass)
         (self : PE.t RelocClass) (rva1 : Z) (second : entry),
    entries_loop get_relocation [mk_entry IMAGE_REL_BASED_HIGHADJ rva1; second] 0 self
      = Ok (mk (arch_name self) true (relocs self ++ [HIGHADJ rva1 rva1]) (warnings self))
    /\ entries_loop get_relocation [mk_entry IMAGE_REL_BASED_HIGHADJ rva1] 0 self
      = Ok (mk (arch_name self) true (relocs self ++ [HIGHADJ rva1 rva1]) (warnings self))
    /\ (forall (entries : list entry) (entry_idx : nat),
          exists self', entries_loop get_relocation entries entry_idx self = Ok self'
                        /\ warnings self' = warnings self).
Proof.
  intros RelocClass get_relocation self rva1 second. split; [|split].
  - rewrite (entries_loop_highadj get_relocation _ 0 self (mk_entry IMAGE_REL_BASED_HIGHADJ rva1))
      by reflexivity.
    simp entries_loop. reflexivity.
  - rewrite (entries_loop_highadj get_relocation _ 0 self (mk_entry IMAGE_REL_BASED_HIGHADJ rva1))
      by reflexivity.
    simp entries_loop. reflexivity.
  - intros entries entry_idx.
    destruct (entries_loop_extends get_relocation entries entry_idx self)
      as (self' & Hrun & _ & Hw & _).
    eauto.
Qed.

(** C10.  Registration always completes; whatever [DllCharacteristics]
    said when [__init__] set [pic], the flag is [true] afterwards as soon
    as one directory entry produced a record, and a flag that was [true]
    stays [true]. *)
Theorem register_relocs_sets_pic :
  forall (RelocClass : Type) (get_relocation : string -> Z -> option RelocClass)
         (DIRECTORY_ENTRY_BASERELOC : option (list (list entry)))
         (self0 : PE.t RelocClass) (DllCharacteristics : Z),
    let self := init_pic self0 DllCharacteristics in
    exists (returned : list (reloc RelocClass)) (self' : PE.t RelocClass),
      __register_relocs get_relocation DIRECTORY_ENTRY_BASERELOC self = Ok (returned, self')
      /\ (pic self = true -> pic self' = true)
      /\ exists new, relocs self' = relocs self ++ new
                     /\ (new <> [] -> pic self' = true).
Proof.
  intros RelocClass get_relocation directory self0 dll self.
  destruct (register_relocs_extends get_relocation directory self)
    as (self' & Hrun & _ & _ & Hpic & Hnew).
  eauto.
Qed.

(** C10 at a binary whose dynamic-base bit is unset and whose single
    directory entry (type 0) produces a record. *)
Lemma register_relocs_sets_pic_witness :
  pic (init_pic (mk (RelocClass := unit) "AMD64" false [] []) 0) = false
  /\ exists returned self',
      __register_relocs (fun _ _ => None) (Some [[mk_entry 0 0x1000]])
        (init_pic (mk (RelocClass := unit) "AMD64" false [] []) 0) = Ok (returned, self')
      /\ pic self' = true.
Proof.
  split; [reflexivity|].
  destruct (register_relocs_sets_pic unit (fun _ _ => None) (Some [[mk_entry 0 0x1000]])
              (mk "AMD64" false [] []) 0)
    as (returned & self' & Hrun & _ & new & Hrel & Hnew).
  exists returned, self'. split; [exact Hrun|].
  apply Hnew. intros ->.
  vm_compute in Hrun. inversion Hrun; subst. cbn in Hrel. discriminate.
Defined.

(** ** The dispatcher as a function of the directory *)

Section Dispatch.
Context {RelocClass : Type} (get_relocation : string -> Z -> option RelocClass).

Lemma drop_S_cons (l : list entry) : forall n x rest,
  drop n l = x :: rest -> drop (S n) l = rest.
Proof.
  induction l as [|y l IH]; intros [|n] x rest; cbn [drop]; try discriminate.
  - intros [= _ <-]. destruct l; reflexivity.
  - intros H. apply (IH n x rest H).
Qed.

Lemma make_reloc_arch (a b : PE.t RelocClass) addr ty sym nr rw :
  arch_name a = arch_name b ->
  _make_reloc get_relocation a addr ty sym nr rw
  = _make_reloc get_relocation b addr ty sym nr rw.
Proof. intros H. unfold _make_reloc. rewrite H. reflexivity. Qed.

Lemma dispatch_arch (a b : PE.t RelocClass) :
  arch_name a = arch_name b ->
  forall n entries, (length entries <= n)%nat ->
    dispatch get_relocation a entries = dispatch get_relocation b entries.
Proof.
  intros H n. induction n as [|n IH]; intros [|e rest] Hlen;
    cbn [dispatch length] in *; try reflexivity; try lia.
  rewrite (make_reloc_arch a b _ _ _ _ _ H).
  rewrite (IH rest) by lia.
  destruct rest as [|e2 rest']; [reflexivity|].
  rewrite (IH rest') by (cbn [length] in Hlen; lia). reflexivity.
Qed.

Lemma registered_arch (new : list (reloc RelocClass)) self :
  arch_name (registered new self) = arch_name self.
Proof. destruct new; reflexivity. Qed.

Lemma registered_app (n1 n2 : list (reloc RelocClass)) self :
  registered n2 (registered n1 self) = registered (n1 ++ n2) self.
Proof.
  destruct n1 as [|r n1]; [reflexivity|].
  destruct n2 as [|r2 n2]; cbn [registered app].
  - rewrite app_nil_r. reflexivity.
  - cbn. rewrite <- app_assoc. reflexivity.
Qed.

Lemma register_registered (reloc_ : option (reloc RelocClass)) self :
  register reloc_ self = registered (option_list reloc_) self.
Proof. destruct reloc_; reflexivity. Qed.

Lemma entries_loop_dispatch entries entry_idx self :
  entries_loop get_relocation entries entry_idx self
  = Ok (registered (dispatch get_relocation self (drop entry_idx entries)) self).
Proof.
  funelim (entries_loop get_relocation entries entry_idx self);
    try rewrite <- Heqcall; try clear Heqcall.
  - rewrite drop_ge by lia. reflexivity.
  - exfalso. match goal with H : _ !! _ = None |- _ => apply lookup_ge_None in H; lia end.
  - match goal with IH : entries_loop _ _ _ _ = _ |- _ => rewrite IH end.
    match goal with H : _ !! _ = Some _ |- _ => rewrite (drop_S _ _ _ H) end.
    cbn [dispatch].
    match goal with H : (_ =? _) = false |- _ => rewrite H end.
    rewrite register_registered, registered_app.
    rewrite (dispatch_arch _ self (registered_arch _ _) _ _ (Nat.le_refl _)).
    replace (entry_idx + 1)%nat with (S entry_idx) by lia.
    destruct (_make_reloc _ _ _ _ _ _ _); reflexivity.
  - exfalso. match goal with H : Nat.eqb _ _ = true |- _ => apply Nat.eqb_eq in H; lia end.
  - match goal with IH : entries_loop _ _ _ _ = _ |- _ => rewrite IH end.
    match goal with H : _ !! _ = Some reloc_data |- _ => rewrite (drop_S _ _ _ H) end.
    cbn [dispatch].
    match goal with H : (_ =? _) = true |- _ => rewrite H end.
    rewrite register_registered, registered_app.
    rewrite (dispatch_arch _ self (registered_arch _ _) _ _ (Nat.le_refl _)).
    replace (entry_idx + 1 + 1)%nat with (S (S entry_idx)) by lia.
    assert (Hnr : _make_reloc get_relocation self (rva reloc_data) (Some (type reloc_data))
                    None (Some (rva next_entry)) None
                  = Some (HIGHADJ (rva reloc_data) (rva reloc_data))).
    { match goal with H : (_ =? _) = true |- _ => apply Z.eqb_eq in H; rewrite H end.
      match goal with
      | H1 : _ !! _ = Some reloc_data, H2 : _ !! _ = Some next_entry |- _ =>
          rewrite H1 in H2; injection H2 as <-
      end.
      reflexivity. }
    rewrite Hnr. cbn [option_list app].
    destruct (drop (S entry_idx) entries) as [|e2 rest'] eqn:E.
    + rewrite (drop_ge entries (S (S entry_idx))); [reflexivity|].
      apply (f_equal length) in E. rewrite length_drop in E. cbn in E. lia.
    + rewrite (drop_S_cons _ _ _ _ E). reflexivity.
  - exfalso. match goal with H : _ !! _ = None |- _ => apply lookup_ge_None in H; lia end.
Qed.

Lemma blocks_loop_dispatch blocks : forall self,
  blocks_loop get_relocation blocks self
  = Ok (registered (concat (map (dispatch get_relocation self) blocks)) self).
Proof.
  induction blocks as [|entries rest IH]; intros self; cbn [blocks_loop map concat].
  - reflexivity.
  - rewrite entries_loop_dispatch. cbn [mbind res_bind]. rewrite drop_0, IH, registered_app.
    do 2 f_equal. f_equal. f_equal. apply map_ext. intros es.
    apply (dispatch_arch _ self (registered_arch _ _) _ _ (Nat.le_refl _)).
Qed.

Lemma addr_of_make_reloc self addr ty sym nr rw (r : reloc RelocClass) :
  _make_reloc get_relocation self addr ty sym nr rw = Some r -> addr_of r = addr.
Proof.
  unfold _make_reloc.
  destruct ty as [[| |]|]; try destruct nr;
    try destruct (get_relocation _ _); intros [= <-]; reflexivity.
Qed.

Lemma dispatch_addresses self : forall n entries, (length entries <= n)%nat ->
  sublist (map addr_of (dispatch get_relocation self entries)) (map rva entries).
Proof.
  induction n as [|n IH]; intros [|e rest] Hlen; cbn [dispatch length map] in *;
    [constructor | lia | constructor | ].
  destruct (type e =? IMAGE_REL_BASED_HIGHADJ).
  - cbn [map addr_of]. apply sublist_skip.
    destruct rest as [|e2 rest']; cbn [map]; [constructor|].
    apply sublist_cons. apply IH. cbn [length] in Hlen. lia.
  - destruct (_make_reloc _ _ _ _ _ _ _) as [r|] eqn:E.
    + cbn [map]. rewrite (addr_of_make_reloc _ _ _ _ _ _ _ E).
      apply sublist_skip. apply IH. lia.
    + apply sublist_cons. apply IH. lia.
Qed.

End Dispatch.

(** X17. what registration computes.  With a base-relocation directory,
    [__register_relocs] never raises; the records it appends are, block
    after block and in the order of the entries, one [HIGHADJ] record for
    each HIGHADJ entry met (the entry after it being skipped) and what
    [_make_reloc] makes of every other entry; [pic] is set exactly when
    it was set before or a record was appended; and the list returned is
    the list of the object. *)
Theorem register_relocs_is_dispatch :
  forall (RelocClass : Type) (get_relocation : string -> Z -> option RelocClass)
         (blocks : list (list entry)) (self : PE.t RelocClass),
    let new := concat (map (dispatch get_relocation self) blocks) in
    exists self' : PE.t RelocClass,
      __register_relocs get_relocation (Some blocks) self = Ok (relocs self', self')
      /\ relocs self' = relocs self ++ new
      /\ pic self' = pic self || negb (Nat.eqb (length new) 0)
      /\ arch_name self' = arch_name self
      /\ warnings self' = warnings self.
Proof.
  intros RelocClass get_relocation blocks self new.
  exists (registered new self). cbn [__register_relocs].
  rewrite blocks_loop_dispatch. fold new. split; [reflexivity|].
  destruct new as [|r new']; cbn.
  - rewrite app_nil_r, orb_false_r. repeat split; reflexivity.
  - rewrite orb_true_r. repeat split; reflexivity.
Qed.

(** X18. registration invents no address and keeps the order of the
    directory.  The addresses of the appended records are a subsequence
    of the [rva]s of the directory entries; in particular there is at
    most one new record per entry. *)
Theorem register_relocs_addresses_from_directory :
  forall (RelocClass : Type) (get_relocation : string -> Z -> option RelocClass)
         (blocks : list (list entry)) (self : PE.t RelocClass),
    exists (self' : PE.t RelocClass) (new : list (reloc RelocClass)),
      __register_relocs get_relocation (Some blocks) self = Ok (relocs self', self')
      /\ relocs self' = relocs self ++ new
      /\ sublist (map addr_of new) (map rva (concat blocks))
      /\ (length new <= length (concat blocks))%nat.
Proof.
  intros RelocClass get_relocation blocks self.
  exists (registered (concat (map (dispatch get_relocation self) blocks)) self),
         (concat (map (dispatch get_relocation self) blocks)).
  cbn [__register_relocs]. rewrite blocks_loop_dispatch.
  split; [reflexivity|].
  split; [destruct (concat _); cbn; rewrite ?app_nil_r; reflexivity|].
  assert (Hsub : sublist (map addr_of (concat (map (dispatch get_relocation self) blocks)))
                         (map rva (concat blocks))).
  { induction blocks as [|es rest IH]; cbn; [constructor|].
    rewrite !map_app. apply sublist_app; [|exact IH].
    apply (dispatch_addresses get_relocation self _ _ (Nat.le_refl _)). }
  split; [exact Hsub|].
  apply sublist_length in Hsub. rewrite !length_map in Hsub. exact Hsub.
Qed.

End PEFacts.

(* ===================================================================== *)
(** * Properties of PE recognition                                         *)
(* ===================================================================== *)

Module PEStreamFacts.
Import PEStream PEStreamSpec.

Lemma bytes_eqb_eq a : forall b, bytes_eqb a b = true <-> a = b.
Proof.
  induction a as [|x a IH]; intros [|y b]; cbn; split; try discriminate; try reflexivity.
  - intros H. apply andb_true_iff in H as [Hx Hr].
    apply Byte.byte_dec_bl in Hx. apply IH in Hr. congruence.
  - intros [= -> ->]. apply andb_true_iff. split; [apply Byte.byte_dec_lb; reflexivity|].
    apply IH. reflexivity.
Qed.

Lemma slice_header_length (ident : list byte) :
  (0x40 < length ident)%nat -> length (slice ident 0x3C 0x40) = 4%nat.
Proof.
  intros H. unfold slice. rewrite length_take, length_drop. lia.
Qed.

Lemma take_drop_take (l : list byte) (n k m : nat) :
  (k + n <= m)%nat -> take n (drop k (take m l)) = take n (drop k l).
Proof.
  intros H. rewrite skipn_firstn_comm, take_take. f_equal. lia.
Qed.

(** What acceptance amounts to, on the bytes that were read. *)
Lemma is_compatible_true little_endian s :
  let ident := take 0x1000 (drop (pos s) (data s)) in
  fst (is_compatible little_endian s) = Ok true <->
  take 2 ident = MZ
  /\ (0x40 < length ident)%nat
  /\ exists peptr : nat,
       unpack_I little_endian (take 4 (drop 0x3C ident)) = Ok (Z.of_nat peptr)
       /\ take 4 (drop peptr ident) = PE00.
Proof.
  intros ident. unfold is_compatible, read. fold ident. cbn [seek data].
  unfold startswith. change (length MZ) with 2%nat.
  destruct (bytes_eqb (take 2 ident) MZ) eqn:Emz; cbn [andb].
  2:{ split; [discriminate|]. intros (Hmz & _). apply bytes_eqb_eq in Hmz. congruence. }
  apply bytes_eqb_eq in Emz.
  destruct (Nat.ltb_spec 0x40 (length ident)) as [Hlen|Hlen].
  2:{ split; [discriminate|]. intros (_ & Hl & _). lia. }
  change (slice ident 0x3C 0x40) with (take 4 (drop 0x3C ident)).
  pose proof (slice_header_length ident Hlen) as Hfour.
  change (slice ident 0x3C 0x40) with (take 4 (drop 0x3C ident)) in Hfour.
  unfold unpack_I. rewrite Hfour. cbn [Nat.eqb].
  set (peptr := if little_endian then le_combine (take 4 (drop 0x3C ident))
                else le_combine (rev (take 4 (drop 0x3C ident)))).
  assert (Hnn : 0 <= peptr).
  { subst peptr. destruct little_endian; apply le_combine_bound. }
  unfold slice.
  replace (Z.to_nat (peptr + 4) - Z.to_nat peptr)%nat with 4%nat by lia.
  destruct (bytes_eqb (take 4 (drop (Z.to_nat peptr) ident)) PE00) eqn:Epe.
  - apply bytes_eqb_eq in Epe.
    assert (Hin : peptr < Z.of_nat (length ident)).
    { apply (f_equal length) in Epe. rewrite length_take, length_drop in Epe.
      cbn [PE00 length] in Epe. lia. }
    apply Z.ltb_lt in Hin. rewrite Hin. cbn [andb fst].
    split; [|reflexivity]. intros _.
    split; [exact Emz|]. split; [exact Hlen|].
    exists (Z.to_nat peptr). rewrite Z2Nat.id by lia. split; [reflexivity|exact Epe].
  - rewrite andb_false_r. cbn [fst]. split; [discriminate|].
    intros (_ & _ & p & Hp & Hsig). injection Hp as Hp.
    rewrite Hp, Nat2Z.id in Epe.
    apply bytes_eqb_eq in Hsig. congruence.
Qed.

(** X19. [is_compatible] never raises and always rewinds.  Whatever the
    stream holds and wherever its cursor stands, the answer is a boolean
    ([struct.unpack] is only reached with exactly four bytes) and the
    cursor is left at 0. *)
Theorem is_compatible_answers_and_rewinds :
  forall (little_endian : bool) (s : stream),
    exists b : bool, is_compatible little_endian s = (Ok b, mk_stream (data s) 0).
Proof.
  intros little_endian s. unfold is_compatible, read. cbn [seek data].
  set (ident := take 0x1000 (drop (pos s) (data s))).
  destruct (startswith ident MZ); cbn [andb]; [|eauto].
  destruct (Nat.ltb_spec 0x40 (length ident)) as [Hlen|Hlen]; [|eauto].
  unfold unpack_I. rewrite (slice_header_length ident Hlen). cbn [Nat.eqb].
  match goal with |- context [if ?c then (Ok true, _) else _] => destruct c end; eauto.
Qed.

(** X20. what [is_compatible] accepts.  An accepted stream holds, from its
    cursor on, [MZ], then at offset 0x3C a 32-bit header offset (read in
    the byte order of the host), and the signature [PE\0\0] at that
    offset, all of it inside the 0x1000 bytes that were read: a PE
    header that ends beyond them is not recognised. *)
Theorem is_compatible_accepts_header_in_first_page :
  forall (little_endian : bool) (s : stream),
    fst (is_compatible little_endian s) = Ok true ->
    exists peptr : nat,
      take 2 (drop (pos s) (data s)) = MZ
      /\ unpack_I little_endian (take 4 (drop (pos s + 0x3C) (data s))) = Ok (Z.of_nat peptr)
      /\ take 4 (drop (pos s + peptr) (data s)) = PE00
      /\ (peptr + 4 <= 0x1000)%nat.
Proof.
  intros little_endian s H.
  apply is_compatible_true in H as (Hmz & Hlen & peptr & Hptr & Hsig).
  set (rest := drop (pos s) (data s)) in *.
  assert (Hfit : (peptr + 4 <= length (take 0x1000 rest))%nat).
  { apply (f_equal length) in Hsig. rewrite length_take, length_drop in Hsig.
    cbn [PE00 length] in Hsig. lia. }
  assert (Hpage : (peptr + 4 <= 0x1000)%nat) by (rewrite length_take in Hfit; lia).
  exists peptr. split; [|split; [|split]].
  - rewrite take_take in Hmz. exact Hmz.
  - unfold rest. rewrite <- drop_drop. fold rest.
    rewrite <- Hptr, take_drop_take by lia. reflexivity.
  - unfold rest. rewrite <- drop_drop. fold rest.
    rewrite <- Hsig, take_drop_take by lia. reflexivity.
  - exact Hpage.
Qed.

Lemma is_compatible_accepts_header_in_first_page_witness :
  fst (is_compatible true (mk_stream tiny_pe 0)) = Ok true
  /\ exists peptr : nat,
      take 2 tiny_pe = MZ
      /\ unpack_I true (take 4 (drop 0x3C tiny_pe)) = Ok (Z.of_nat peptr)
      /\ take 4 (drop peptr tiny_pe) = PE00
      /\ (peptr + 4 <= 0x1000)%nat.
Proof.
  split; [vm_compute; reflexivity|].
  apply (is_compatible_accepts_header_in_first_page true (mk_stream tiny_pe 0)).
  vm_compute. reflexivity.
Defined.

(** X21. the full test implies the quick one.  A stream at its start that
    [is_compatible] accepts is accepted by [check_magic_compatibility],
    which looks at the first two bytes only, whatever the cursor. *)
Theorem is_compatible_implies_magic :
  forall (little_endian : bool) (s : stream),
    pos s = 0%nat ->
    fst (is_compatible little_endian s) = Ok true ->
    forall k : nat, check_magic_compatibility (seek k s) = (true, s).
Proof.
  intros little_endian [d p] Hpos H. cbn in Hpos. subst p.
  apply is_compatible_true in H as (Hmz & _). cbn [pos data drop] in Hmz.
  intros k. unfold check_magic_compatibility, read, seek. cbn [data pos drop].
  f_equal. unfold startswith. change (length MZ) with 2%nat.
  apply bytes_eqb_eq. rewrite take_take in *. exact Hmz.
Qed.

Lemma is_compatible_implies_magic_witness :
  pos (mk_stream tiny_pe 0) = 0%nat
  /\ fst (is_compatible true (mk_stream tiny_pe 0)) = Ok true
  /\ check_magic_compatibility (seek 7 (mk_stream tiny_pe 0)) = (true, mk_stream tiny_pe 0).
Proof.
  split; [reflexivity|]. split; [vm_compute; reflexivity|].
  apply (is_compatible_implies_magic true (mk_stream tiny_pe 0) eq_refl).
  vm_compute. reflexivity.
Defined.

End PEStreamFacts.

(* ===================================================================== *)
(** * Properties of the TLS callback table                                 *)
(* ===================================================================== *)

Module PETlsFacts.
Import PETls PETlsSpec.

Section Callbacks.
Context (get_dword_at_rva : Z -> option Z) (lva_to_rva : Z -> Z).

Lemma callbacks_loop_table (table : list Z) : forall fuel callback_rva acc,
  (forall i c, table !! i = Some c ->
     get_dword_at_rva (callback_rva + 4 * Z.of_nat i) = Some c /\ c <> 0) ->
  get_dword_at_rva (callback_rva + 4 * Z.of_nat (length table)) = Some 0
    \/ get_dword_at_rva (callback_rva + 4 * Z.of_nat (length table)) = None ->
  (length table < fuel)%nat ->
  callbacks_loop get_dword_at_rva fuel callback_rva (get_dword_at_rva callback_rva) acc
  = Some (acc ++ table).
Proof.
  induction table as [|c table IH]; intros [|fuel] callback_rva acc Hall Hend Hfuel;
    cbn [length] in *; try lia; cbn [callbacks_loop].
  - rewrite Z.mul_0_r, Z.add_0_r in Hend. rewrite app_nil_r.
    destruct Hend as [-> | ->]; reflexivity.
  - destruct (Hall 0%nat c eq_refl) as (H0 & Hc).
    rewrite Z.mul_0_r, Z.add_0_r in H0. rewrite H0.
    apply Z.eqb_neq in Hc. rewrite Hc. cbn [negb].
    rewrite (IH fuel (callback_rva + 4) (acc ++ [c])).
    + rewrite <- app_assoc. reflexivity.
    + intros i c' Hi. destruct (Hall (S i) c' Hi) as (Hg & Hn).
      split; [|exact Hn]. rewrite <- Hg. f_equal. lia.
    + replace (callback_rva + 4 + 4 * Z.of_nat (length table))
        with (callback_rva + 4 * Z.of_nat (S (length table))) by lia.
      exact Hend.
    + lia.
Qed.

End Callbacks.

(** X22. the TLS callback table is read up to its first null.  When the
    image holds the non-zero dwords [table] from the translated address
    on, four bytes apart, followed by a zero dword or by the end of the
    image, [_register_tls_callbacks] leaves its loop (more than
    [length table] iterations are never needed) and returns exactly
    [table], in order. *)
Theorem tls_callbacks_up_to_first_null :
  forall (get_dword_at_rva : Z -> option Z) (lva_to_rva : Z -> Z) (addr : Z)
         (table : list Z) (fuel : nat),
    (forall i c, table !! i = Some c ->
       get_dword_at_rva (lva_to_rva addr + 4 * Z.of_nat i) = Some c /\ c <> 0) ->
    get_dword_at_rva (lva_to_rva addr + 4 * Z.of_nat (length table)) = Some 0
      \/ get_dword_at_rva (lva_to_rva addr + 4 * Z.of_nat (length table)) = None ->
    (length table < fuel)%nat ->
    _register_tls_callbacks get_dword_at_rva lva_to_rva fuel addr = Some table.
Proof.
  intros g tr addr table fuel Hall Hend Hfuel. unfold _register_tls_callbacks.
  rewrite (callbacks_loop_table g table fuel (tr addr) [] Hall Hend Hfuel). reflexivity.
Qed.

Lemma tls_callbacks_up_to_first_null_witness :
  _register_tls_callbacks image_dwords (fun lva => lva - 0x400000) 3 0x402000
  = Some [0x401000; 0x401040].
Proof.
  apply (tls_callbacks_up_to_first_null image_dwords (fun lva => lva - 0x400000) 0x402000
           [0x401000; 0x401040] 3).
  - intros [|[|[|i]]] c; cbn; intros [= <-]; split; (reflexivity || discriminate).
  - left. reflexivity.
  - cbn. lia.
Defined.

End PETlsFacts.
